(** * A shallow embedding of the DPLL solver of [lib/src/sat_solver.cpp]

    The C++ class [sat_solver::SATSolver] and the helpers of namespace
    [sat_solver::utils] are transcribed function by function.

    Conventions of the embedding:
    - [int] is modelled by [Z].  The solver performs no arithmetic on
      literals other than [std::abs], unary minus, comparison with 0 and
      the [+ 1] that sizes the assignment vector.  On literals of magnitude
      below [INT_MAX] none of these leaves the range of [int], and the
      model computes what the source computes.  At the ends of the range
      the source overflows: [std::abs] and unary minus at [INT_MIN], and
      [num_variables_ + 1] at [INT_MAX].  The last is made explicit in
      [is_satisfiable]; properties that depend on the others carry the
      range of the literals as a hypothesis.
    - [std::vector<T>] is a [list T]; [v[i]] is stdpp's list lookup and
      [v[i] = x] stdpp's list insert.  The C++ [operator[]] is unchecked,
      so an index outside the vector is undefined behaviour; the embedding
      makes this explicit with the [Undefined] outcome.
    - [std::set<int>] is a strictly increasing [list Z], because the
      source relies on its ascending iteration order.
    - Reference parameters that are mutated ([Formula&],
      [std::vector<bool>&]) are returned as additional results.
    - Loops and recursions whose termination depends on the input carry a
      fuel argument; exhausting it is the [OutOfFuel] outcome. *)

From Stdlib Require Import ZArith Bool Lia Sorted.
From stdpp Require Import base option list sets strings pretty.

Local Open Scope Z_scope.

(** ** Outcomes of running C++ code *)

Inductive outcome (A : Type) : Type :=
| Done (a : A)     (* normal return *)
| Undefined        (* undefined behaviour was executed *)
| OutOfFuel.         (* the fuel of the model ran out *)

Arguments Done {A} a.
Arguments Undefined {A}.
Arguments OutOfFuel {A}.

#[global] Instance outcome_ret : MRet outcome := fun _ x => Done x.
#[global] Instance outcome_bind : MBind outcome := fun _ _ k m =>
  match m with
  | Done a => k a
  | Undefined => Undefined
  | OutOfFuel => OutOfFuel
  end.

(** ** Data model ([sat_solver.h]) *)

(** [using Clause = std::vector<int>], [using Formula = std::vector<Clause>];
    assignments are [std::vector<bool>]. *)
Abbreviation Clause := (list Z) (only parsing).
Abbreviation Formula := (list (list Z)) (only parsing).
Abbreviation Assignment := (list bool) (only parsing).

(** [assignment[var]] on a [std::vector<bool>]: unchecked read. *)
Definition vec_get (assignment : Assignment) (var : Z) : outcome bool :=
  if decide (0 <= var) then
    match assignment !! Z.to_nat var with
    | Some b => Done b
    | None => Undefined
    end
  else Undefined.

(** [assignment[var] = value]: unchecked write. *)
Definition vec_set (assignment : Assignment) (var : Z) (value : bool)
  : outcome Assignment :=
  if decide (0 <= var) then
    match assignment !! Z.to_nat var with
    | Some _ => Done (<[Z.to_nat var := value]> assignment)
    | None => Undefined
    end
  else Undefined.

(** ** [SATSolver::simplify] *)

(** The inner loop of [simplify] over the literals of one clause.
    [None] stands for [clause_satisfied = true] (left by [break]),
    [Some c] for the clause as it is after the erasures. *)
Fixpoint simplify_clause (clause : Clause) (assignment : Assignment)
  : outcome (option Clause) :=
  match clause with
  | [] => Done (Some [])
  | lit :: rest =>
      var_value ← vec_get assignment (Z.abs lit);
      if ((0 <? lit) && var_value) || ((lit <? 0) && negb var_value) then
        Done None
      else if ((0 <? lit) && negb var_value) || ((lit <? 0) && var_value) then
        simplify_clause rest assignment
      else
        r ← simplify_clause rest assignment;
        Done (option_map (cons lit) r)
  end.

(** The outer loop of [simplify]: satisfied clauses are erased from the
    formula, the others stay in place with their falsified literals
    erased. *)
Fixpoint simplify (formula : Formula) (assignment : Assignment)
  : outcome Formula :=
  match formula with
  | [] => Done []
  | clause :: rest =>
      r ← simplify_clause clause assignment;
      rest' ← simplify rest assignment;
      Done (match r with
            | None => rest'
            | Some clause' => clause' :: rest'
            end)
  end.

(** ** [SATSolver::unit_propagate] *)

(** [clause.empty()] *)
Definition clause_empty (clause : Clause) : bool :=
  match clause with
  | [] => true
  | _ :: _ => false
  end.

(** The scan of the [for] loop: the literal [( *it)[0]] of the first clause
    with [it->size() == 1], if there is one. *)
Fixpoint first_unit (formula : Formula) : option Z :=
  match formula with
  | [] => None
  | [lit] :: _ => Some lit
  | _ :: rest => first_unit rest
  end.

(** The [while (changed)] loop.  One unit of fuel is spent per iteration. *)
Fixpoint unit_propagate_loop (fuel : nat) (formula : Formula)
  (assignment : Assignment) : outcome (Formula * Assignment) :=
  match fuel with
  | O => OutOfFuel
  | S fuel' =>
      match first_unit formula with
      | None => Done (formula, assignment)
      | Some lit =>
          assignment' ← vec_set assignment (Z.abs lit) (0 <? lit);
          formula' ← simplify formula assignment';
          unit_propagate_loop fuel' formula' assignment'
      end
  end.

(** Returns the conflict flag together with the mutated formula and
    assignment. *)
Definition unit_propagate (fuel : nat) (formula : Formula)
  (assignment : Assignment) : outcome (bool * Formula * Assignment) :=
  '(formula', assignment') ← unit_propagate_loop fuel formula assignment;
  Done (existsb clause_empty formula', formula', assignment').

(** ** [std::set<int>] as a strictly increasing list *)

Fixpoint set_insert (x : Z) (s : list Z) : list Z :=
  match s with
  | [] => [x]
  | y :: s' =>
      if x <? y then x :: s
      else if x =? y then s
      else y :: set_insert x s'
  end.

(** [s.find(x) != s.end()] *)
Definition set_find (x : Z) (s : list Z) : bool := existsb (Z.eqb x) s.

(** ** [SATSolver::pure_literal_eliminate] *)

Definition collect_literal (sets : list Z * list Z) (lit : Z)
  : list Z * list Z :=
  let '(positive_literals, negative_literals) := sets in
  if 0 <? lit then (set_insert lit positive_literals, negative_literals)
  else (positive_literals, set_insert (- lit) negative_literals).

(** The pair [(positive_literals, negative_literals)] after the collecting
    loops. *)
Definition collect_literals (formula : Formula) : list Z * list Z :=
  fold_left (fun sets clause => fold_left collect_literal clause sets)
            formula ([], []).

(** The variable and the value fixed by one call, if any: the first
    element of [positive_literals] absent from [negative_literals], and
    only when there is none the first element of [negative_literals]
    absent from [positive_literals]. *)
Definition pure_choice (formula : Formula) : option (Z * bool) :=
  let '(positive_literals, negative_literals) := collect_literals formula in
  match find (fun var => negb (set_find var negative_literals))
             positive_literals with
  | Some var => Some (var, true)
  | None =>
      match find (fun var => negb (set_find var positive_literals))
                 negative_literals with
      | Some var => Some (var, false)
      | None => None
      end
  end.

Definition pure_literal_eliminate (formula : Formula)
  (assignment : Assignment) : outcome (bool * Formula * Assignment) :=
  match pure_choice formula with
  | Some (var, value) =>
      assignment' ← vec_set assignment var value;
      formula' ← simplify formula assignment';
      Done (true, formula', assignment')
  | None => Done (false, formula, assignment)
  end.

(** ** [SATSolver::choose_variable] *)

Definition unassigned_vars (formula : Formula) : list Z :=
  fold_left (fun s clause =>
               fold_left (fun s lit => set_insert (Z.abs lit) s) clause s)
            formula [].

Definition choose_variable (formula : Formula) : Z :=
  match unassigned_vars formula with
  | [] => -1
  | var :: _ => var
  end.

(** ** [SATSolver::dpll] *)

(** [formula.empty()] *)
Definition clause_list_empty (formula : Formula) : bool :=
  match formula with
  | [] => true
  | _ :: _ => false
  end.

(** The branching step (lines "Try assigning true" to the end of [dpll]).
    [rec] is the recursive call.  The assignment is a reference shared with
    the callee, so the second attempt starts from the assignment as the
    failed first attempt left it. *)
Definition dpll_branch
  (rec : Formula -> Assignment -> Z -> outcome (bool * Assignment))
  (formula : Formula) (assignment : Assignment) (next_var : Z)
  : outcome (bool * Assignment) :=
  assignment1 ← vec_set assignment next_var true;
  formula_copy ← simplify formula assignment1;
  '(result, assignment2) ← rec formula_copy assignment1 (next_var + 1);
  if (result : bool) then Done (true, assignment2)
  else
    assignment3 ← vec_set assignment2 next_var false;
    formula_copy' ← simplify formula assignment3;
    rec formula_copy' assignment3 (next_var + 1).

(** One activation of [dpll]; [fuel] bounds the loop of unit propagation. *)
Definition dpll_body (fuel : nat)
  (rec : Formula -> Assignment -> Z -> outcome (bool * Assignment))
  (formula : Formula) (assignment : Assignment) (var : Z)
  : outcome (bool * Assignment) :=
  if clause_list_empty formula then Done (true, assignment)
  else if existsb clause_empty formula then Done (false, assignment)
  else
    '(conflict, formula1, assignment1) ← unit_propagate fuel formula assignment;
    if (conflict : bool) then Done (false, assignment1)
    else
      '(_, formula2, assignment2) ← pure_literal_eliminate formula1 assignment1;
      if clause_list_empty formula2 then Done (true, assignment2)
      else
        let next_var := choose_variable formula2 in
        if next_var =? -1 then Done (true, assignment2)
        else dpll_branch rec formula2 assignment2 next_var.

Fixpoint dpll (fuel : nat) (formula : Formula) (assignment : Assignment)
  (var : Z) : outcome (bool * Assignment) :=
  match fuel with
  | O => OutOfFuel
  | S fuel' => dpll_body fuel (dpll fuel') formula assignment var
  end.

(** ** The range of [int] *)

Definition INT_MAX : Z := 2147483647.
Definition INT_MIN : Z := -2147483648.

(** A clause of [int] literals whose magnitude is an [int] too, that is,
    without [INT_MIN], on which [std::abs] is not defined. *)
Definition int_clause (clause : Clause) : Prop :=
  Forall (fun lit => INT_MIN < lit <= INT_MAX) clause.

(** A formula whose literals have a magnitude below [INT_MAX]: the counter
    of variables can be incremented without overflow. *)
Definition bounded_literals (f : Formula) : Prop :=
  Forall (Forall (fun lit => Z.abs lit < INT_MAX)) f.

(** ** The solver object *)

Record SATSolver : Type := mkSATSolver {
  formula_ : Formula;
  num_variables_ : Z;
  assignment_ : Assignment;
  has_satisfying_assignment_ : bool
}.

(** [SATSolver::SATSolver()] *)
Definition new_solver : SATSolver :=
  {| formula_ := [];
     num_variables_ := 0;
     assignment_ := [];
     has_satisfying_assignment_ := false |}.

(** The loop of [add_clause] that raises [num_variables_].  [std::abs] is
    [Z.abs] on every [int] but [INT_MIN], whose magnitude is not an
    [int]; what is proved of the counter is proved for clauses that
    satisfy [int_clause]. *)
Definition update_num_variables (num_variables : Z) (clause : Clause) : Z :=
  fold_left (fun n lit => let var := Z.abs lit in
                          if n <? var then var else n)
            clause num_variables.

Definition add_clause (s : SATSolver) (clause : Clause) : SATSolver :=
  {| formula_ := formula_ s ++ [clause];
     num_variables_ := update_num_variables (num_variables_ s) clause;
     assignment_ := [];
     has_satisfying_assignment_ := false |}.

Definition clear (s : SATSolver) : SATSolver :=
  {| formula_ := [];
     num_variables_ := 0;
     assignment_ := [];
     has_satisfying_assignment_ := false |}.

Definition get_num_variables (s : SATSolver) : Z := num_variables_ s.

Definition get_num_clauses (s : SATSolver) : Z := Z.of_nat (length (formula_ s)).

(** [is_satisfiable] returns its verdict and the solver as it leaves it.
    The size of the vector is the [int] expression [num_variables_ + 1]:
    with the counter at [INT_MAX] (or beyond, in the model) the addition
    overflows, which is undefined behaviour (the compiled code asks
    [assign] for an impossible size and leaves by an exception). *)
Definition is_satisfiable (fuel : nat) (s : SATSolver)
  : outcome (bool * SATSolver) :=
  if clause_list_empty (formula_ s) then Done (true, s)
  else if num_variables_ s <? INT_MAX then
    let assignment := replicate (Z.to_nat (num_variables_ s + 1)) false in
    '(result, assignment') ← dpll fuel (formula_ s) assignment 1;
    Done (result,
          {| formula_ := formula_ s;
             num_variables_ := num_variables_ s;
             assignment_ := assignment';
             has_satisfying_assignment_ := result |})
  else Undefined.

(** [std::vector<bool> result(v.begin() + 1, v.end())].  The iterator
    [v.begin() + 1] exists only when [v] has an element; on an empty vector
    the range is invalid. *)
Definition vec_from_second (v : Assignment) : outcome Assignment :=
  match v with
  | [] => Undefined
  | _ :: result => Done result
  end.

Definition get_satisfying_assignment (fuel : nat) (s : SATSolver)
  : outcome (Assignment * SATSolver) :=
  if has_satisfying_assignment_ s then
    result ← vec_from_second (assignment_ s);
    Done (result, s)
  else
    '(sat, s') ← is_satisfiable fuel s;
    if (sat : bool) then
      result ← vec_from_second (assignment_ s');
      Done (result, s')
    else Done ([], s').

(** ** [sat_solver::utils] *)

(** The two loops of [are_equivalent] that fill a fresh solver. *)
Definition solver_of (f : Formula) : SATSolver :=
  fold_left add_clause f new_solver.

Definition are_equivalent (fuel : nat) (f1 f2 : Formula) : outcome bool :=
  let solver1 := solver_of f1 in
  let solver2 := solver_of f2 in
  '(sat1, _) ← is_satisfiable fuel solver1;
  '(sat2, _) ← is_satisfiable fuel solver2;
  if negb (Bool.eqb sat1 sat2) then Done false
  else if negb sat1 then Done true
  else Done true.

(** [generate_random_3sat] draws from [std::mt19937], seeded with a value
    read from [std::random_device], through two
    [std::uniform_int_distribution<>].  These belong to the C++ standard
    library; they are taken as parameters.  The value delivered by the
    random device is an input of the call that the caller does not
    control. *)
Section RandomInstances.

(** The state of the engine. *)
Variable engine : Type.
(** [std::mt19937 gen(seed)] *)
Variable engine_init : Z -> engine.
(** [std::uniform_int_distribution<>(lo, hi)(gen)]: the number drawn and
    the engine after the draw. *)
Variable uniform_int : Z -> Z -> engine -> Z * engine.

(** The loop over [j]: [count] literals are appended to [clause]. *)
Fixpoint random_literals (count : nat) (num_vars : Z) (gen : engine)
  (clause : Clause) : Clause * engine :=
  match count with
  | O => (clause, gen)
  | S count' =>
      let '(var, gen1) := uniform_int 1 num_vars gen in
      let '(sign, gen2) := uniform_int 0 1 gen1 in
      let positive := negb (sign =? 0) in
      random_literals count' num_vars gen2
        (clause ++ [if positive then var else - var])
  end.

(** The loop over [i]. *)
Fixpoint random_clauses (count : nat) (num_vars : Z) (gen : engine)
  (formula : Formula) : Formula :=
  match count with
  | O => formula
  | S count' =>
      let '(clause, gen') := random_literals 3 num_vars gen [] in
      random_clauses count' num_vars gen' (formula ++ [clause])
  end.

(** [rd] is the value of [rd()]. *)
Definition generate_random_3sat (rd : Z) (num_vars num_clauses : Z)
  : Formula :=
  random_clauses (Z.to_nat num_clauses) num_vars (engine_init rd) [].

End RandomInstances.

(** ** Reference semantics of CNF formulas *)

(** The truth value of variable [var] (1-based) in the sequence returned by
    [get_satisfying_assignment], which holds variable [i + 1] at index
    [i]. *)
Definition value_of (witness : list bool) (var : Z) : bool :=
  default false (witness !! Z.to_nat (var - 1)).

Definition literal_true (witness : list bool) (lit : Z) : bool :=
  if 0 <? lit then value_of witness lit
  else negb (value_of witness (- lit)).

Definition clause_true (witness : list bool) (clause : Clause) : bool :=
  existsb (literal_true witness) clause.

Definition formula_true (witness : list bool) (f : Formula) : bool :=
  forallb (clause_true witness) f.

(** All sequences of [n] truth values. *)
Fixpoint all_assignments (n : nat) : list (list bool) :=
  match n with
  | O => [[]]
  | S n' =>
      map (cons false) (all_assignments n')
      ++ map (cons true) (all_assignments n')
  end.

(** Brute-force enumeration: some total assignment over the variables
    [1..num_vars] makes every clause true. *)
Definition brute_force_sat (num_vars : Z) (f : Formula) : bool :=
  existsb (fun witness => formula_true witness f)
          (all_assignments (Z.to_nat num_vars)).

(** ** Well-formed inputs *)

(** Every variable of the clause has a slot in the assignment vector. *)
Definition clause_in_bounds (assignment : Assignment) (clause : Clause) : Prop :=
  Forall (fun lit => Z.abs lit < Z.of_nat (length assignment)) clause.

Definition in_bounds (f : Formula) (assignment : Assignment) : Prop :=
  Forall (clause_in_bounds assignment) f.

(** Literals are nonzero integers (the data model's requirement on
    clauses handed to the solver). *)
Definition nonzero_literals (f : Formula) : Prop :=
  Forall (Forall (fun lit => lit ≠ 0)) f.

(** The value the vector holds for the variable of [lit]. *)
Definition var_value (assignment : Assignment) (lit : Z) : bool :=
  default false (assignment !! Z.to_nat (Z.abs lit)).

Definition lit_satisfied (assignment : Assignment) (lit : Z) : bool :=
  ((0 <? lit) && var_value assignment lit)
  || ((lit <? 0) && negb (var_value assignment lit)).

Definition lit_falsified (assignment : Assignment) (lit : Z) : bool :=
  ((0 <? lit) && negb (var_value assignment lit))
  || ((lit <? 0) && var_value assignment lit).

Definition clause_satisfied (assignment : Assignment) (clause : Clause) : bool :=
  existsb (lit_satisfied assignment) clause.

(** ** Simplification as the specification words it

    The specification describes [simplify] on a partial assignment, in
    which a variable is either fixed to a value or unassigned.  The two
    definitions below follow that wording; they are compared with the
    [simplify] of the source further down. *)

Definition partial_value (p : list (option bool)) (lit : Z) : option bool :=
  match p !! Z.to_nat (Z.abs lit) with
  | Some (Some b) => Some b
  | _ => None
  end.

Definition spec_lit_satisfied (p : list (option bool)) (lit : Z) : bool :=
  match partial_value p lit with
  | Some b => ((0 <? lit) && b) || ((lit <? 0) && negb b)
  | None => false
  end.

Definition spec_lit_falsified (p : list (option bool)) (lit : Z) : bool :=
  match partial_value p lit with
  | Some b => ((0 <? lit) && negb b) || ((lit <? 0) && b)
  | None => false
  end.

Definition spec_simplify (f : Formula) (p : list (option bool)) : Formula :=
  map (List.filter (fun lit => negb (spec_lit_falsified p lit)))
      (List.filter (fun clause => negb (existsb (spec_lit_satisfied p) clause))
                   f).

(** The vector the solver keeps for a partial assignment: it is filled with
    [false] by [is_satisfiable] and a slot is overwritten when its variable
    is fixed. *)
Definition vector_of (p : list (option bool)) : Assignment :=
  map (default false) p.

(** ** Pure variables *)

Definition occurs (lit : Z) (f : Formula) : Prop :=
  Exists (fun clause => lit ∈ clause) f.

Definition pure_positive (var : Z) (f : Formula) : Prop :=
  0 < var /\ occurs var f /\ ~ occurs (- var) f.

Definition pure_negative (var : Z) (f : Formula) : Prop :=
  0 < var /\ occurs (- var) f /\ ~ occurs var f.

Definition pure (var : Z) (f : Formula) : Prop :=
  pure_positive var f \/ pure_negative var f.

(** ** Histories of the formula store *)

Inductive store_op : Type :=
| AddClause (clause : Clause)
| Clear.

Definition apply_op (s : SATSolver) (o : store_op) : SATSolver :=
  match o with
  | AddClause clause => add_clause s clause
  | Clear => clear s
  end.

Definition run_ops (ops : list store_op) : SATSolver :=
  fold_left apply_op ops new_solver.

(** The clause of an [add_clause] is made of [int] literals with a
    magnitude. *)
Definition op_in_range (o : store_op) : Prop :=
  match o with
  | AddClause clause => int_clause clause
  | Clear => True
  end.

(** The clauses added after the last [Clear] of a history, oldest first. *)
Fixpoint clauses_since_clear (ops : list store_op) : Formula :=
  match ops with
  | [] => []
  | AddClause clause :: rest =>
      if existsb (fun o => match o with Clear => true | _ => false end) rest
      then clauses_since_clear rest
      else clause :: clauses_since_clear rest
  | Clear :: rest => clauses_since_clear rest
  end.

(** The largest literal magnitude of a formula, 0 for a formula without
    literals. *)
Definition max_magnitude (f : Formula) : Z :=
  foldr Z.max 0 (map Z.abs (concat f)).

(** Solver states that the public operations can produce. *)
Inductive reachable : SATSolver -> Prop :=
| reachable_new : reachable new_solver
| reachable_add s clause : reachable s -> reachable (add_clause s clause)
| reachable_clear s : reachable s -> reachable (clear s)
| reachable_query s fuel verdict s' :
    reachable s -> is_satisfiable fuel s = Done (verdict, s') -> reachable s'
| reachable_witness s fuel result s' :
    reachable s -> get_satisfying_assignment fuel s = Done (result, s') ->
    reachable s'.

(** ** A small engine to run the generator on

    A counter engine: the state is an integer, a draw from [lo..hi] is the
    state reduced into the range, and the state is incremented. *)

Definition counter_init (seed : Z) : Z := seed.

Definition counter_uniform_int (lo hi : Z) (gen : Z) : Z * Z :=
  (lo + gen mod (hi - lo + 1), gen + 1).

(** ** Reaching the branching step

    An activation of [dpll] on [formula] and [assignment] reaches the line
    "Choose next variable" with the formula [formula2] and the assignment
    [assignment2]: none of the four earlier [return]s is taken. *)
Definition reaches_branching (fuel : nat) (formula : Formula)
  (assignment : Assignment) (formula2 : Formula) (assignment2 : Assignment)
  : Prop :=
  clause_list_empty formula = false
  /\ existsb clause_empty formula = false
  /\ exists formula1 assignment1 changed,
       unit_propagate fuel formula assignment
       = Done (false, formula1, assignment1)
       /\ pure_literal_eliminate formula1 assignment1
          = Done (changed, formula2, assignment2)
       /\ clause_list_empty formula2 = false.

(** ** The remaining queries of the solver *)

(** The loop of [is_3sat]: the first clause whose size is not 3 ends it with
    [false]. *)
Fixpoint all_size_three (formula : Formula) : bool :=
  match formula with
  | [] => true
  | clause :: rest =>
      if negb (length clause =? 3)%nat then false else all_size_three rest
  end.

Definition is_3sat (s : SATSolver) : bool := all_size_three (formula_ s).

(** [create_solver_from_clauses] of the Python module
    ([python_bindings.cpp]): a fresh solver fed clause by clause. *)
Definition create_solver_from_clauses (clauses : Formula) : SATSolver :=
  fold_left add_clause clauses new_solver.

(** ** [SATSolver::to_string]

    [oss << n] on an [int] writes its decimal digits; this is stdpp's
    [pretty] on [Z]. *)

(** The text written for one literal. *)
Definition literal_string (lit : Z) : string :=
  if lit <? 0 then "NOT x" +:+ pretty (- lit) else "x" +:+ pretty lit.

(** The loop over [j], from index [j] on. *)
Fixpoint clause_string (j : nat) (clause : Clause) : string :=
  match clause with
  | [] => ""
  | lit :: rest =>
      (if (0 <? j)%nat then " OR " else "")
      +:+ literal_string lit +:+ clause_string (S j) rest
  end.

(** The loop over [i], from index [i] on; [size] is [formula_.size()]. *)
Fixpoint formula_string (i size : nat) (formula : Formula) : string :=
  match formula with
  | [] => ""
  | clause :: rest =>
      "(" +:+ clause_string 0 clause +:+ ")"
      +:+ (if (i <? size - 1)%nat then " AND " else "")
      +:+ formula_string (S i) size rest
  end.

Definition to_string (s : SATSolver) : string :=
  formula_string 0 (length (formula_ s)) (formula_ s).

(** ** Satisfaction by the solver's vector

    The vector of the solver keeps variable [i] in slot [i]; slot 0 is not
    used. *)
Definition vector_satisfies (assignment : Assignment) (f : Formula) : bool :=
  forallb (clause_satisfied assignment) f.

(** The vector [is_satisfiable] starts the search from. *)
Definition initial_vector (s : SATSolver) : Assignment :=
  replicate (Z.to_nat (num_variables_ s + 1)) false.

(** * Properties *)

(** ** Facts about the vector operations *)

Lemma vec_get_in_range (assignment : Assignment) (lit : Z) :
  Z.abs lit < Z.of_nat (length assignment) ->
  vec_get assignment (Z.abs lit) = Done (var_value assignment lit).
Proof.
  intros Hlt. unfold vec_get, var_value.
  destruct (decide (0 <= Z.abs lit)) as [_|Hneg]; [|lia].
  destruct (assignment !! Z.to_nat (Z.abs lit)) as [b|] eqn:Hlook; [done|].
  apply lookup_ge_None in Hlook. lia.
Qed.

Lemma vec_set_in_range (assignment : Assignment) (var : Z) (value : bool) :
  0 <= var < Z.of_nat (length assignment) ->
  vec_set assignment var value = Done (<[Z.to_nat var := value]> assignment).
Proof.
  intros [Hlo Hhi]. unfold vec_set.
  destruct (decide (0 <= var)) as [_|Hneg]; [|lia].
  destruct (assignment !! Z.to_nat var) as [b|] eqn:Hlook; [done|].
  apply lookup_ge_None in Hlook. lia.
Qed.

Lemma in_bounds_insert (f : Formula) (assignment : Assignment) (i : nat) (b : bool) :
  in_bounds f assignment -> in_bounds f (<[i := b]> assignment).
Proof.
  unfold in_bounds, clause_in_bounds. intros Hb.
  eapply Forall_impl; [exact Hb|]. intros clause Hc.
  eapply Forall_impl; [exact Hc|]. intros lit Hlit. cbv beta in *.
  rewrite length_insert. exact Hlit.
Qed.

(** ** What [simplify] computes *)

Lemma simplify_clause_spec (clause : Clause) (assignment : Assignment) :
  clause_in_bounds assignment clause ->
  simplify_clause clause assignment =
  Done (if clause_satisfied assignment clause then None
        else Some (List.filter (fun lit => negb (lit_falsified assignment lit))
                               clause)).
Proof.
  unfold clause_in_bounds, clause_satisfied.
  induction 1 as [|lit rest Hlit Hrest IH]; [done|].
  cbn [simplify_clause existsb List.filter].
  rewrite (vec_get_in_range _ _ Hlit). cbn [mbind outcome_bind].
  unfold lit_satisfied at 1, lit_falsified at 1.
  destruct (((0 <? lit) && var_value assignment lit)
            || ((lit <? 0) && negb (var_value assignment lit))); [done|].
  destruct (((0 <? lit) && negb (var_value assignment lit))
            || ((lit <? 0) && var_value assignment lit)); cbn [orb negb].
  - exact IH.
  - rewrite IH. cbn [mbind outcome_bind].
    by destruct (existsb (lit_satisfied assignment) rest).
Qed.

Lemma simplify_spec (f : Formula) (assignment : Assignment) :
  in_bounds f assignment ->
  simplify f assignment =
  Done (map (List.filter (fun lit => negb (lit_falsified assignment lit)))
            (List.filter (fun clause => negb (clause_satisfied assignment clause))
                         f)).
Proof.
  unfold in_bounds.
  induction 1 as [|clause rest Hc Hrest IH]; [done|].
  cbn [simplify List.filter].
  rewrite (simplify_clause_spec _ _ Hc), IH. cbn [mbind outcome_bind].
  by destruct (clause_satisfied assignment clause).
Qed.

(** A nonzero literal is either satisfied or falsified by the vector: the
    vector has no third state. *)
Lemma nonzero_falsified_or_satisfied (assignment : Assignment) (lit : Z) :
  lit ≠ 0 -> lit_falsified assignment lit = negb (lit_satisfied assignment lit).
Proof.
  intros Hnz. unfold lit_falsified, lit_satisfied.
  destruct (var_value assignment lit);
    destruct (0 <? lit) eqn:Hpos; destruct (lit <? 0) eqn:Hneg; try done; lia.
Qed.

Lemma unsatisfied_clause_loses_all (assignment : Assignment) (clause : Clause) :
  Forall (fun lit => lit ≠ 0) clause ->
  clause_satisfied assignment clause = false ->
  List.filter (fun lit => negb (lit_falsified assignment lit)) clause = [].
Proof.
  unfold clause_satisfied.
  induction 1 as [|lit rest Hlit Hrest IH]; [done|].
  cbn [existsb List.filter]. intros Hsat.
  apply orb_false_iff in Hsat as [Hl Hr].
  rewrite (nonzero_falsified_or_satisfied _ _ Hlit), Hl. cbn. by apply IH.
Qed.

(** On a formula of nonzero literals every clause that [simplify] keeps
    comes out empty. *)
Lemma simplify_nonzero_all_empty (f f' : Formula) (assignment : Assignment) :
  nonzero_literals f -> in_bounds f assignment ->
  simplify f assignment = Done f' ->
  Forall (fun clause => clause = []) f'.
Proof.
  intros Hnz Hb Hs. rewrite (simplify_spec _ _ Hb) in Hs.
  inversion Hs as [Hf']. clear Hs Hf' Hb.
  induction Hnz as [|clause rest Hc Hrest IH]; [by constructor|].
  cbn [List.filter].
  destruct (clause_satisfied assignment clause) eqn:Hsat; cbn [negb]; [exact IH|].
  cbn [map]. constructor; [|exact IH].
  by apply unsatisfied_clause_loses_all.
Qed.

(** ** The formula store *)

Lemma update_num_variables_max (n : Z) (clause : Clause) :
  0 <= n ->
  update_num_variables n clause = Z.max n (foldr Z.max 0 (map Z.abs clause)).
Proof.
  unfold update_num_variables. revert n.
  induction clause as [|lit rest IH]; intros n Hn; cbn [fold_left map foldr].
  - lia.
  - rewrite IH.
    + destruct (n <? Z.abs lit) eqn:Hcmp; lia.
    + destruct (n <? Z.abs lit); lia.
Qed.

Lemma max_magnitude_nonneg (f : Formula) : 0 <= max_magnitude f.
Proof.
  unfold max_magnitude. induction (map Z.abs (concat f)); cbn [foldr]; lia.
Qed.

Lemma foldr_max_app (l1 l2 : list Z) :
  foldr Z.max 0 (l1 ++ l2) = Z.max (foldr Z.max 0 l1) (foldr Z.max 0 l2).
Proof.
  assert (0 <= foldr Z.max 0 l2) as Hnn by (induction l2; cbn [foldr]; lia).
  induction l1 as [|x l1 IH]; cbn [app foldr]; lia.
Qed.

Lemma max_magnitude_snoc (f : Formula) (clause : Clause) :
  max_magnitude (f ++ [clause]) =
  Z.max (max_magnitude f) (foldr Z.max 0 (map Z.abs clause)).
Proof.
  unfold max_magnitude.
  rewrite concat_app, map_app, foldr_max_app. cbn [concat].
  by rewrite app_nil_r.
Qed.

(** The invariant of the store: the counter is the largest magnitude of the
    stored clauses. *)
Lemma store_invariant_add (s : SATSolver) (clause : Clause) :
  num_variables_ s = max_magnitude (formula_ s) ->
  num_variables_ (add_clause s clause)
  = max_magnitude (formula_ (add_clause s clause)).
Proof.
  intros Hinv. cbn [add_clause num_variables_ formula_].
  rewrite max_magnitude_snoc, update_num_variables_max, Hinv; [done|].
  rewrite Hinv. apply max_magnitude_nonneg.
Qed.

Lemma store_invariant_run (ops : list store_op) (s : SATSolver) :
  num_variables_ s = max_magnitude (formula_ s) ->
  num_variables_ (fold_left apply_op ops s)
  = max_magnitude (formula_ (fold_left apply_op ops s)).
Proof.
  revert s. induction ops as [|o rest IH]; intros s Hinv; [exact Hinv|].
  cbn [fold_left]. apply IH. destruct o as [clause|]; cbn [apply_op].
  - by apply store_invariant_add.
  - reflexivity.
Qed.

Lemma stored_formula_run (ops : list store_op) (s : SATSolver) :
  formula_ (fold_left apply_op ops s) =
  if existsb (fun o => match o with Clear => true | _ => false end) ops
  then clauses_since_clear ops
  else formula_ s ++ clauses_since_clear ops.
Proof.
  revert s. induction ops as [|o rest IH]; intros s.
  - cbn. by rewrite app_nil_r.
  - cbn [fold_left existsb clauses_since_clear]. rewrite IH.
    destruct o as [clause|]; cbn [apply_op orb].
    + destruct (existsb _ rest); [done|].
      cbn [add_clause formula_]. by rewrite <- app_assoc.
    + by destruct (existsb _ rest).
Qed.

Lemma max_magnitude_int (f : list (list Z)) :
  Forall int_clause f -> 0 <= max_magnitude f <= INT_MAX.
Proof.
  intros Hall. split; [apply max_magnitude_nonneg|]. unfold max_magnitude.
  induction Hall as [|clause rest Hc Hrest IH]; [by cbn|].
  cbn [concat]. rewrite map_app, foldr_max_app.
  assert (foldr Z.max 0 (map Z.abs clause) <= INT_MAX) as Hcl.
  { clear -Hc. unfold int_clause in Hc.
    induction Hc as [|lit more Hl Hm IHc]; [by cbn|].
    cbn [map foldr]. unfold INT_MIN, INT_MAX in *. lia. }
  lia.
Qed.

Lemma clauses_since_clear_in_range (ops : list store_op) :
  Forall op_in_range ops -> Forall int_clause (clauses_since_clear ops).
Proof.
  induction 1 as [|o rest Ho Hrest IH]; [constructor|].
  destruct o as [clause|]; cbn [clauses_since_clear]; [|exact IH].
  destruct (existsb _ rest); [exact IH|]. by constructor.
Qed.

(** C9.  After any sequence of [add_clause] and [clear] operations on a
    fresh solver, with clauses of [int] literals other than [INT_MIN]
    (whose magnitude is not an [int]), the stored formula consists of the
    clauses added since the last [clear] and [get_num_variables] is the
    largest literal magnitude among them (0 when there is none), which is
    an [int].  The invariant is kept by [add_clause], which takes the
    maximum with the magnitudes of the new clause, and by [clear], which
    resets the counter to 0. *)
Theorem num_variables_is_max_magnitude (ops : list store_op) :
  Forall op_in_range ops ->
  formula_ (run_ops ops) = clauses_since_clear ops
  /\ get_num_variables (run_ops ops) = max_magnitude (clauses_since_clear ops)
  /\ 0 <= get_num_variables (run_ops ops) <= INT_MAX
  /\ (forall clause, int_clause clause ->
        get_num_variables (add_clause (run_ops ops) clause)
        = Z.max (get_num_variables (run_ops ops)) (max_magnitude [clause]))
  /\ get_num_variables (clear (run_ops ops)) = 0.
Proof.
  intros Hrange.
  assert (formula_ (run_ops ops) = clauses_since_clear ops) as Hf.
  { unfold run_ops. rewrite stored_formula_run. cbn [new_solver formula_ app].
    by destruct (existsb _ ops). }
  assert (num_variables_ (run_ops ops) = max_magnitude (formula_ (run_ops ops)))
    as Hinv by (by apply store_invariant_run).
  split; [exact Hf|]. split; [|split; [|split]].
  - unfold get_num_variables. by rewrite Hinv, Hf.
  - unfold get_num_variables. rewrite Hinv, Hf.
    apply max_magnitude_int. by apply clauses_since_clear_in_range.
  - intros clause _. unfold get_num_variables.
    cbn [add_clause num_variables_].
    rewrite update_num_variables_max.
    + unfold max_magnitude at 1. cbn [concat]. by rewrite app_nil_r.
    + rewrite Hinv. apply max_magnitude_nonneg.
  - reflexivity.
Qed.

(** A history with a [clear] in the middle: the counter is 5, not the 7 of
    the clause that was cleared away. *)
Lemma num_variables_is_max_magnitude_witness :
  get_num_variables
    (run_ops [AddClause [1; -7; 2]; Clear; AddClause [-3; 2]; AddClause [5]])
  = max_magnitude
      (clauses_since_clear
         [AddClause [1; -7; 2]; Clear; AddClause [-3; 2]; AddClause [5]]).
Proof.
  assert (Forall op_in_range
            [AddClause [1; -7; 2]; Clear; AddClause [-3; 2]; AddClause [5]])
    as Hrange.
  { unfold op_in_range, int_clause, INT_MIN, INT_MAX. repeat constructor; lia. }
  exact (proj1 (proj2 (num_variables_is_max_magnitude _ Hrange))).
Defined.

(** ** The empty store *)

Lemma snoc_not_nil {A : Type} (l : list A) (x : A) : l ++ [x] <> [].
Proof. destruct l; discriminate. Qed.

Lemma is_satisfiable_keeps_formula (fuel : nat) (s s' : SATSolver) (verdict : bool) :
  is_satisfiable fuel s = Done (verdict, s') ->
  formula_ s' = formula_ s
  /\ (formula_ s = [] -> s' = s).
Proof.
  unfold is_satisfiable. destruct (formula_ s) as [|clause rest] eqn:Hf.
  - cbn. intros Hd. inversion Hd; subst. by rewrite Hf.
  - cbn [clause_list_empty].
    destruct (num_variables_ s <? INT_MAX); [|discriminate].
    destruct (dpll fuel _ _ 1) as [[result assignment']| |];
      cbn [mbind outcome_bind]; intros Hd; inversion Hd; subst.
    cbn. split; [done|discriminate].
Qed.

(** While no clause is stored the internal vector is empty and the cache
    flag is down. *)
Lemma reachable_empty_store (s : SATSolver) :
  reachable s -> formula_ s = [] ->
  assignment_ s = [] /\ has_satisfying_assignment_ s = false.
Proof.
  induction 1 as [|s clause Hr IH|s Hr IH|s fuel verdict s' Hr IH Hq
                 |s fuel result s' Hr IH Hw]; intros Hempty.
  - done.
  - cbn in Hempty. by apply snoc_not_nil in Hempty.
  - done.
  - apply is_satisfiable_keeps_formula in Hq as [Hsame Hid].
    rewrite Hsame in Hempty. rewrite (Hid Hempty). by apply IH.
  - unfold get_satisfying_assignment in Hw.
    destruct (has_satisfying_assignment_ s) eqn:Hhas.
    + destruct (vec_from_second (assignment_ s)); cbn in Hw; inversion Hw; subst.
      destruct (IH Hempty) as [_ Hflag]. discriminate Hflag.
    + destruct (is_satisfiable fuel s) as [[sat s1]| |] eqn:Hq;
        cbn [mbind outcome_bind] in Hw; try discriminate.
      apply is_satisfiable_keeps_formula in Hq as [Hsame Hid].
      assert (s' = s1) as ->.
      { destruct sat; [|by inversion Hw].
        destruct (vec_from_second (assignment_ s1)); cbn in Hw; by inversion Hw. }
      rewrite Hsame in Hempty. rewrite (Hid Hempty).
      destruct (IH Hempty) as [Hvec _]. by split.
Qed.

(** C10.  On a solver that stores no clause, [is_satisfiable] returns true
    and leaves the solver untouched, so the internal vector stays empty;
    [get_satisfying_assignment] then builds its result from the range that
    starts one past the beginning of that empty vector, which is not a
    valid range: the call has undefined behaviour instead of returning the
    empty sequence. *)
Theorem get_satisfying_assignment_empty_store (fuel : nat) (s : SATSolver) :
  reachable s -> formula_ s = [] ->
  is_satisfiable fuel s = Done (true, s)
  /\ assignment_ s = []
  /\ get_satisfying_assignment fuel s = Undefined.
Proof.
  intros Hr Hempty.
  destruct (reachable_empty_store s Hr Hempty) as [Ha Hh].
  assert (is_satisfiable fuel s = Done (true, s)) as Hq.
  { unfold is_satisfiable. by rewrite Hempty. }
  split; [exact Hq|]. split; [exact Ha|].
  unfold get_satisfying_assignment. rewrite Hh, Hq. cbn [mbind outcome_bind].
  by rewrite Ha.
Qed.

(** The freshly constructed solver is such a state. *)
Lemma get_satisfying_assignment_empty_store_witness :
  is_satisfiable 5 new_solver = Done (true, new_solver)
  /\ assignment_ new_solver = []
  /\ get_satisfying_assignment 5 new_solver = Undefined.
Proof.
  apply (get_satisfying_assignment_empty_store 5 new_solver).
  - exact reachable_new.
  - reflexivity.
Defined.

(** ** Unit propagation *)

Lemma first_unit_None (f : Formula) :
  first_unit f = None <-> Forall (fun clause => length clause <> 1%nat) f.
Proof.
  induction f as [|clause rest IH]; [by split; [constructor|]|].
  destruct clause as [|lit [|lit' more]]; cbn [first_unit].
  - rewrite IH. split; [by constructor|by inversion 1].
  - split; [discriminate|]. inversion 1 as [|? ? Hlen]. by cbn in Hlen.
  - rewrite IH. split; [by constructor|by inversion 1].
Qed.

Lemma first_unit_Some (f : Formula) (lit : Z) :
  first_unit f = Some lit -> [lit] ∈ f.
Proof.
  induction f as [|clause rest IH]; [discriminate|].
  destruct clause as [|lit0 [|lit' more]]; cbn [first_unit]; intros Hu.
  - right. by apply IH.
  - inversion Hu; subst. left.
  - right. by apply IH.
Qed.

Lemma clause_empty_exists (f : Formula) :
  existsb clause_empty f = true <-> [] ∈ f.
Proof.
  induction f as [|clause rest IH]; cbn [existsb].
  - split; [discriminate|by inversion 1].
  - rewrite orb_true_iff, IH. destruct clause; cbn [clause_empty].
    + split; [left|by left].
    + split; [intros [?|?]; [done|by right]|].
      inversion 1; subst; by right.
Qed.

Lemma all_empty_no_unit (f : Formula) :
  Forall (fun clause => clause = []) f -> first_unit f = None.
Proof.
  intros Hall. apply first_unit_None.
  eapply Forall_impl; [exact Hall|]. by intros clause ->.
Qed.

Lemma literal_in_bounds (f : Formula) (assignment : Assignment) (clause : Clause) (lit : Z) :
  in_bounds f assignment -> clause ∈ f -> lit ∈ clause ->
  0 <= Z.abs lit < Z.of_nat (length assignment).
Proof.
  intros Hb Hc Hl. unfold in_bounds, clause_in_bounds in Hb.
  rewrite Forall_forall in Hb. specialize (Hb clause Hc).
  rewrite Forall_forall in Hb. specialize (Hb lit Hl). lia.
Qed.

(** On well-formed input the loop of [unit_propagate] runs at most one
    propagation step, and the mutated formula and assignment are: *)
Lemma unit_propagate_loop_total (f : Formula) (assignment : Assignment) :
  nonzero_literals f -> in_bounds f assignment ->
  exists f' assignment',
    (forall n, unit_propagate_loop (S (S n)) f assignment = Done (f', assignment'))
    /\ first_unit f' = None
    /\ length assignment' = length assignment
    /\ (first_unit f = None -> f' = f /\ assignment' = assignment)
    /\ (forall lit, first_unit f = Some lit ->
          assignment' = <[Z.to_nat (Z.abs lit) := (0 <? lit)]> assignment
          /\ simplify f assignment' = Done f'
          /\ Forall (fun clause => clause = []) f').
Proof.
  intros Hnz Hb. destruct (first_unit f) as [lit|] eqn:Hu.
  - pose proof (first_unit_Some _ _ Hu) as Hin.
    assert (0 <= Z.abs lit < Z.of_nat (length assignment)) as Hrange.
    { eapply literal_in_bounds; [exact Hb|exact Hin|left]. }
    set (assignment' := <[Z.to_nat (Z.abs lit) := (0 <? lit)]> assignment).
    assert (in_bounds f assignment') as Hb' by (by apply in_bounds_insert).
    destruct (simplify f assignment') as [f'| |] eqn:Hs;
      try (rewrite (simplify_spec _ _ Hb') in Hs; discriminate).
    pose proof (simplify_nonzero_all_empty _ _ _ Hnz Hb' Hs) as Hall.
    exists f', assignment'. split; [|split; [|split; [|split]]].
    + intros n. cbn [unit_propagate_loop]. rewrite Hu.
      rewrite (vec_set_in_range _ _ _ Hrange). cbn [mbind outcome_bind].
      fold assignment'. rewrite Hs. cbn [mbind outcome_bind].
      by rewrite (all_empty_no_unit _ Hall).
    + by apply all_empty_no_unit.
    + unfold assignment'. apply length_insert.
    + discriminate.
    + intros lit' Heq. inversion Heq; subst lit'. done.
  - exists f, assignment. split; [|split; [|split; [|split]]]; try done.
    intros n. cbn [unit_propagate_loop]. by rewrite Hu.
Qed.

(** C4.  For every formula of nonzero literals and every assignment vector
    that has a slot for each of its variables, unit propagation
    terminates (two units of fuel suffice, and more fuel gives the same
    result).  On termination the formula has no unit clause, and either
    no conflict is reported and the formula has no empty clause, or a
    conflict is reported and the formula has an empty clause. *)
Theorem unit_propagate_terminates (f : Formula) (assignment : Assignment) :
  nonzero_literals f -> in_bounds f assignment ->
  exists conflict f' assignment',
    (forall n, unit_propagate (S (S n)) f assignment
               = Done (conflict, f', assignment'))
    /\ Forall (fun clause => length clause <> 1%nat) f'
    /\ ((conflict = false /\ [] ∉ f') \/ (conflict = true /\ [] ∈ f')).
Proof.
  intros Hnz Hb.
  destruct (unit_propagate_loop_total f assignment Hnz Hb)
    as (f' & assignment' & Hloop & Hnone & _).
  exists (existsb clause_empty f'), f', assignment'.
  split; [|split].
  - intros n. unfold unit_propagate. by rewrite Hloop.
  - by apply first_unit_None.
  - destruct (existsb clause_empty f') eqn:Hc.
    + right. split; [done|]. by apply clause_empty_exists.
    + left. split; [done|]. intros Hin. apply clause_empty_exists in Hin.
      congruence.
Qed.

(** The requirement on literals cannot be dropped: on the unit clause [0]
    the loop finds the same unit clause again after every step. *)
Example unit_propagate_zero_literal_loops (fuel : nat) :
  unit_propagate fuel [[0]] [false] = OutOfFuel.
Proof.
  unfold unit_propagate.
  assert (unit_propagate_loop fuel [[0]] [false] = OutOfFuel) as ->; [|done].
  induction fuel as [|fuel IH]; [done|]. cbn. exact IH.
Qed.

(** An instance with a unit clause: propagating x1 empties the other two
    clauses. *)
Lemma unit_propagate_terminates_witness :
  exists conflict f' assignment',
    (forall n, unit_propagate (S (S n)) [[1]; [-1; 2]; [2; 3]]
                 [false; false; false; false]
               = Done (conflict, f', assignment'))
    /\ Forall (fun clause => length clause <> 1%nat) f'
    /\ ((conflict = false /\ [] ∉ f') \/ (conflict = true /\ [] ∈ f')).
Proof.
  apply (unit_propagate_terminates [[1]; [-1; 2]; [2; 3]]
           [false; false; false; false]).
  - unfold nonzero_literals. repeat constructor; lia.
  - unfold in_bounds, clause_in_bounds. repeat constructor; simpl; lia.
Defined.

(** ** Ordered sets *)

Lemma set_insert_elem (x y : Z) (s : list Z) :
  x ∈ set_insert y s <-> x = y \/ x ∈ s.
Proof.
  induction s as [|h t IH]; cbn [set_insert].
  - rewrite list_elem_of_singleton. split; [by left|].
    intros [?|Hin]; [done|by inversion Hin].
  - destruct (y <? h) eqn:Hlt; [by rewrite elem_of_cons|].
    destruct (y =? h) eqn:Heq.
    + apply Z.eqb_eq in Heq as ->. rewrite elem_of_cons. tauto.
    + rewrite !elem_of_cons, IH. tauto.
Qed.

Lemma set_insert_sorted (y : Z) (s : list Z) :
  StronglySorted Z.lt s -> StronglySorted Z.lt (set_insert y s).
Proof.
  induction 1 as [|h t Ht IH Hall]; cbn [set_insert].
  - repeat constructor.
  - destruct (y <? h) eqn:Hlt.
    + apply Z.ltb_lt in Hlt. constructor; [by constructor|].
      constructor; [done|].
      eapply Forall_impl; [exact Hall|]. intros z Hz. cbv beta in *. lia.
    + destruct (y =? h) eqn:Heq; [by constructor|].
      apply Z.ltb_ge in Hlt. apply Z.eqb_neq in Heq.
      constructor; [exact IH|].
      rewrite Forall_forall. intros z Hz.
      apply set_insert_elem in Hz as [->|Hz]; [lia|].
      rewrite Forall_forall in Hall. by apply Hall.
Qed.

Lemma set_find_elem (x : Z) (s : list Z) : set_find x s = true <-> x ∈ s.
Proof.
  unfold set_find. induction s as [|h t IH]; cbn [existsb].
  - split; [discriminate|by inversion 1].
  - rewrite orb_true_iff, IH, elem_of_cons, Z.eqb_eq. tauto.
Qed.

(** Iterating an increasing list with a test yields the least element that
    passes the test. *)
Lemma find_sorted_least (p : Z -> bool) (s : list Z) (v : Z) :
  StronglySorted Z.lt s -> find p s = Some v ->
  forall w, w ∈ s -> p w = true -> v <= w.
Proof.
  induction 1 as [|h t Ht IH Hall]; [discriminate|].
  cbn [find]. destruct (p h) eqn:Hp.
  - intros Hv w Hw _. inversion Hv; subst.
    apply elem_of_cons in Hw as [->|Hw]; [lia|].
    rewrite Forall_forall in Hall. specialize (Hall w Hw). lia.
  - intros Hv w Hw Hpw.
    apply elem_of_cons in Hw as [->|Hw]; [congruence|]. by apply IH.
Qed.

Lemma find_Some_elem (p : Z -> bool) (s : list Z) (v : Z) :
  find p s = Some v -> v ∈ s /\ p v = true.
Proof.
  intros Hf. apply find_some in Hf as [Hin Hp].
  split; [by apply list_elem_of_In|done].
Qed.

Lemma find_None_elem (p : Z -> bool) (s : list Z) :
  find p s = None -> forall w, w ∈ s -> p w = false.
Proof.
  intros Hf w Hw. eapply find_none; [exact Hf|by apply list_elem_of_In].
Qed.

(** ** The literal sets of pure-literal elimination *)

Lemma occurs_concat (lit : Z) (f : Formula) : occurs lit f <-> lit ∈ concat f.
Proof.
  unfold occurs. induction f as [|clause rest IH]; cbn [concat].
  - split; [by inversion 1|by inversion 1].
  - rewrite Exists_cons, elem_of_app, IH. tauto.
Qed.

Lemma fold_left_concat {A : Type} (g : A -> Z -> A) (f : Formula) (init : A) :
  fold_left (fun acc clause => fold_left g clause acc) f init
  = fold_left g (concat f) init.
Proof.
  revert init. induction f as [|clause rest IH]; intros init; [done|].
  cbn [fold_left concat]. by rewrite IH, fold_left_app.
Qed.

Lemma collect_fold (l : list Z) (pos neg : list Z) :
  StronglySorted Z.lt pos -> StronglySorted Z.lt neg ->
  let '(pos', neg') := fold_left collect_literal l (pos, neg) in
  StronglySorted Z.lt pos' /\ StronglySorted Z.lt neg'
  /\ (forall v, v ∈ pos' <-> v ∈ pos \/ (0 < v /\ v ∈ l))
  /\ (forall v, v ∈ neg' <-> v ∈ neg \/ (0 <= v /\ - v ∈ l)).
Proof.
  revert pos neg. induction l as [|lit rest IH]; intros pos neg Hp Hn.
  - cbn. split; [done|]. split; [done|].
    split; intros v; (split; [by left|]);
      intros [?|[_ Hin]]; try done; by inversion Hin.
  - cbn [fold_left collect_literal]. destruct (0 <? lit) eqn:Hpos.
    + apply Z.ltb_lt in Hpos.
      specialize (IH (set_insert lit pos) neg (set_insert_sorted _ _ Hp) Hn).
      destruct (fold_left collect_literal rest (set_insert lit pos, neg))
        as [pos' neg'].
      destruct IH as (Hsp & Hsn & Hep & Hen).
      split; [done|]. split; [done|]. split; intros v.
      * rewrite Hep, set_insert_elem, elem_of_cons.
        split; [intros [[->|?]|[? ?]]|intros [?|[? [->|?]]]]; tauto.
      * rewrite Hen, elem_of_cons.
        split; [intros [?|[? ?]]|intros [?|[? [?|?]]]]; try tauto.
        lia.
    + apply Z.ltb_ge in Hpos.
      specialize (IH pos (set_insert (- lit) neg) Hp (set_insert_sorted _ _ Hn)).
      destruct (fold_left collect_literal rest (pos, set_insert (- lit) neg))
        as [pos' neg'].
      destruct IH as (Hsp & Hsn & Hep & Hen).
      split; [done|]. split; [done|]. split; intros v.
      * rewrite Hep, elem_of_cons.
        split; [intros [?|[? ?]]|intros [?|[? [?|?]]]]; try tauto.
        lia.
      * rewrite Hen, set_insert_elem, elem_of_cons.
        split.
        -- intros [[->|?]|[? ?]]; [right|by left|right; tauto].
           split; [lia|left; lia].
        -- intros [?|[? [?|?]]]; [tauto| |tauto].
           left. left. lia.
Qed.

Lemma collect_literals_spec (f : Formula) :
  let '(pos, neg) := collect_literals f in
  StronglySorted Z.lt pos /\ StronglySorted Z.lt neg
  /\ (forall v, v ∈ pos <-> 0 < v /\ occurs v f)
  /\ (forall v, v ∈ neg <-> 0 <= v /\ occurs (- v) f).
Proof.
  unfold collect_literals. rewrite fold_left_concat.
  pose proof (collect_fold (concat f) [] [] (SSorted_nil _) (SSorted_nil _)) as H.
  destruct (fold_left collect_literal (concat f) ([], [])) as [pos neg].
  destruct H as (Hsp & Hsn & Hep & Hen).
  split; [done|]. split; [done|]. split; intros v.
  - rewrite Hep, occurs_concat. split; [intros [Hin|?]; [by inversion Hin|done]|by right].
  - rewrite Hen, occurs_concat. split; [intros [Hin|?]; [by inversion Hin|done]|by right].
Qed.

(** ** Pure-literal elimination *)

Lemma occurs_nonzero (lit : Z) (f : Formula) :
  nonzero_literals f -> occurs lit f -> lit <> 0.
Proof.
  unfold nonzero_literals, occurs. rewrite Forall_forall, Exists_exists.
  intros Hnz (clause & Hc & Hl). specialize (Hnz clause Hc).
  rewrite Forall_forall in Hnz. by apply Hnz.
Qed.

Lemma occurs_in_bounds (lit : Z) (f : Formula) (assignment : Assignment) :
  in_bounds f assignment -> occurs lit f ->
  0 <= Z.abs lit < Z.of_nat (length assignment).
Proof.
  unfold occurs. rewrite Exists_exists. intros Hb (clause & Hc & Hl).
  by eapply literal_in_bounds.
Qed.

(** The choice of the source: the least pure-positive variable if there is
    a pure-positive variable. *)
Lemma pure_choice_positive (f : Formula) (v : Z) :
  pure_positive v f -> (forall w, pure_positive w f -> v <= w) ->
  pure_choice f = Some (v, true).
Proof.
  intros (Hpos & Hocc & Hnocc) Hleast. unfold pure_choice.
  pose proof (collect_literals_spec f) as Hspec.
  destruct (collect_literals f) as [pos neg].
  destruct Hspec as (Hsp & Hsn & Hep & Hen).
  assert (negb (set_find v neg) = true) as Hpv.
  { apply negb_true_iff, not_true_is_false. rewrite set_find_elem, Hen. tauto. }
  destruct (find (fun var => negb (set_find var neg)) pos) as [v'|] eqn:Hfind.
  - pose proof (find_sorted_least _ _ _ Hsp Hfind v (proj2 (Hep v) (conj Hpos Hocc)) Hpv)
      as Hle.
    apply find_Some_elem in Hfind as [Hin Hp'].
    apply Hep in Hin as [Hpos' Hocc'].
    assert (pure_positive v' f) as Hpure'.
    { split; [done|]. split; [done|]. intros Hneg.
      apply negb_true_iff in Hp'. apply not_true_iff_false in Hp'.
      apply Hp'. rewrite set_find_elem, Hen. split; [lia|done]. }
    specialize (Hleast v' Hpure'). by replace v' with v by lia.
  - pose proof (find_None_elem _ _ Hfind v (proj2 (Hep v) (conj Hpos Hocc))) as Hno.
    cbv beta in Hno. congruence.
Qed.

(** Otherwise the least pure-negative variable. *)
Lemma pure_choice_negative (f : Formula) (v : Z) :
  nonzero_literals f ->
  (forall w, ~ pure_positive w f) ->
  pure_negative v f -> (forall w, pure_negative w f -> v <= w) ->
  pure_choice f = Some (v, false).
Proof.
  intros Hnz Hnopos (Hpos & Hocc & Hnocc) Hleast. unfold pure_choice.
  pose proof (collect_literals_spec f) as Hspec.
  destruct (collect_literals f) as [pos neg].
  destruct Hspec as (Hsp & Hsn & Hep & Hen).
  destruct (find (fun var => negb (set_find var neg)) pos) as [u|] eqn:Hfp.
  { apply find_Some_elem in Hfp as [Hin Hp]. apply Hep in Hin as [Hu Hou].
    exfalso. apply (Hnopos u). split; [done|]. split; [done|]. intros Hneg.
    apply negb_true_iff, not_true_iff_false in Hp.
    apply Hp. rewrite set_find_elem, Hen. split; [lia|done]. }
  assert (v ∈ neg) as Hvin by (apply Hen; split; [lia|done]).
  assert (negb (set_find v pos) = true) as Hpv.
  { apply negb_true_iff, not_true_is_false. rewrite set_find_elem, Hep. tauto. }
  destruct (find (fun var => negb (set_find var pos)) neg) as [v'|] eqn:Hfind.
  - pose proof (find_sorted_least _ _ _ Hsn Hfind v Hvin Hpv) as Hle.
    apply find_Some_elem in Hfind as [Hin Hp'].
    apply Hen in Hin as [Hnn' Hocc'].
    pose proof (occurs_nonzero _ _ Hnz Hocc') as Hne.
    assert (pure_negative v' f) as Hpure'.
    { split; [lia|]. split; [done|]. intros Hposocc.
      apply negb_true_iff, not_true_iff_false in Hp'.
      apply Hp'. rewrite set_find_elem, Hep. split; [lia|done]. }
    specialize (Hleast v' Hpure'). by replace v' with v by lia.
  - pose proof (find_None_elem _ _ Hfind v Hvin) as Hno.
    cbv beta in Hno. congruence.
Qed.

(** Without a pure variable nothing is chosen. *)
Lemma pure_choice_none (f : Formula) :
  nonzero_literals f -> (forall w, ~ pure w f) -> pure_choice f = None.
Proof.
  intros Hnz Hnone. unfold pure_choice.
  pose proof (collect_literals_spec f) as Hspec.
  destruct (collect_literals f) as [pos neg].
  destruct Hspec as (Hsp & Hsn & Hep & Hen).
  destruct (find (fun var => negb (set_find var neg)) pos) as [u|] eqn:Hfp.
  { apply find_Some_elem in Hfp as [Hin Hp]. apply Hep in Hin as [Hu Hou].
    exfalso. apply (Hnone u). left. split; [done|]. split; [done|]. intros Hneg.
    apply negb_true_iff, not_true_iff_false in Hp.
    apply Hp. rewrite set_find_elem, Hen. split; [lia|done]. }
  destruct (find (fun var => negb (set_find var pos)) neg) as [u|] eqn:Hfn; [|done].
  apply find_Some_elem in Hfn as [Hin Hp]. apply Hen in Hin as [Hu Hou].
  pose proof (occurs_nonzero _ _ Hnz Hou) as Hne.
  exfalso. apply (Hnone u). right. split; [lia|]. split; [done|]. intros Hposocc.
  apply negb_true_iff, not_true_iff_false in Hp.
  apply Hp. rewrite set_find_elem, Hep. split; [lia|done].
Qed.

Lemma pure_literal_eliminate_fixes (f : Formula) (assignment : Assignment)
  (v : Z) (value : bool) :
  in_bounds f assignment ->
  0 <= v < Z.of_nat (length assignment) ->
  pure_choice f = Some (v, value) ->
  exists f',
    pure_literal_eliminate f assignment
    = Done (true, f', <[Z.to_nat v := value]> assignment)
    /\ simplify f (<[Z.to_nat v := value]> assignment) = Done f'.
Proof.
  intros Hb Hrange Hchoice. unfold pure_literal_eliminate. rewrite Hchoice.
  rewrite (vec_set_in_range _ _ _ Hrange). cbn [mbind outcome_bind].
  pose proof (simplify_spec f _ (in_bounds_insert f assignment (Z.to_nat v) value Hb))
    as Hs.
  rewrite Hs. cbn [mbind outcome_bind]. eexists. split; reflexivity.
Qed.

(** C5, as the code has it.  On a formula of nonzero literals with an
    assignment vector covering its variables, one call of pure-literal
    elimination fixes exactly one slot of the vector and then simplifies:
    if some variable is pure positive, the least pure-positive variable is
    set to true; only when no variable is pure positive, the least
    pure-negative variable is set to false.  Without a pure variable the
    call changes nothing. *)
Theorem pure_literal_eliminate_positive_first (f : Formula) (assignment : Assignment) :
  nonzero_literals f -> in_bounds f assignment ->
  (forall v, pure_positive v f -> (forall w, pure_positive w f -> v <= w) ->
     exists f',
       pure_literal_eliminate f assignment
       = Done (true, f', <[Z.to_nat v := true]> assignment)
       /\ simplify f (<[Z.to_nat v := true]> assignment) = Done f')
  /\ (forall v, (forall w, ~ pure_positive w f) ->
        pure_negative v f -> (forall w, pure_negative w f -> v <= w) ->
        exists f',
          pure_literal_eliminate f assignment
          = Done (true, f', <[Z.to_nat v := false]> assignment)
          /\ simplify f (<[Z.to_nat v := false]> assignment) = Done f')
  /\ ((forall w, ~ pure w f) ->
        pure_literal_eliminate f assignment = Done (false, f, assignment)).
Proof.
  intros Hnz Hb. split; [|split].
  - intros v Hpure Hleast.
    apply pure_literal_eliminate_fixes; [done| |by apply pure_choice_positive].
    destruct Hpure as (Hpos & Hocc & _).
    pose proof (occurs_in_bounds _ _ _ Hb Hocc). lia.
  - intros v Hnopos Hpure Hleast.
    apply pure_literal_eliminate_fixes; [done| |by apply pure_choice_negative].
    destruct Hpure as (Hpos & Hocc & _).
    pose proof (occurs_in_bounds _ _ _ Hb Hocc). lia.
  - intros Hnone. unfold pure_literal_eliminate.
    by rewrite (pure_choice_none f Hnz Hnone).
Qed.

(** On [[-1, 2]] the least pure-positive variable is 2. *)
Lemma pure_literal_eliminate_positive_first_witness :
  exists f',
    pure_literal_eliminate [[-1; 2]] [false; true; false]
    = Done (true, f', <[Z.to_nat 2 := true]> [false; true; false])
    /\ simplify [[-1; 2]] (<[Z.to_nat 2 := true]> [false; true; false]) = Done f'.
Proof.
  assert (nonzero_literals [[-1; 2]]) as Hnz
    by (unfold nonzero_literals; repeat constructor; lia).
  assert (in_bounds [[-1; 2]] [false; true; false]) as Hb
    by (unfold in_bounds, clause_in_bounds; repeat constructor; simpl; lia).
  apply (proj1 (pure_literal_eliminate_positive_first _ _ Hnz Hb) 2).
  - split; [lia|]. split.
    + apply occurs_concat. cbn. set_unfold. lia.
    + rewrite occurs_concat. cbn. set_unfold. lia.
  - intros w (Hpos & Hocc & _). apply occurs_concat in Hocc. cbn in Hocc.
    set_unfold in Hocc. lia.
Defined.

(** C5, as stated, fails on [[-1, 2]]: variables 1 and 2 are both pure and
    1 is the lowest, yet the call fixes variable 2 (to true) and leaves the
    slot of variable 1 as it was. *)
Lemma pure_literal_eliminate_skips_lowest_pure :
  pure 1 [[-1; 2]]
  /\ (forall w, pure w [[-1; 2]] -> 1 <= w)
  /\ pure_literal_eliminate [[-1; 2]] [false; true; false]
     = Done (true, [], [false; true; true])
  /\ ~ (exists f',
          pure_literal_eliminate [[-1; 2]] [false; true; false]
          = Done (true, f', <[Z.to_nat 1 := false]> [false; true; false])).
Proof.
  split; [|split; [|split]].
  - right. split; [lia|]. split.
    + apply occurs_concat. cbn. set_unfold. lia.
    + rewrite occurs_concat. cbn. set_unfold. lia.
  - intros w [(Hpos & _)|(Hpos & _)]; lia.
  - reflexivity.
  - intros [f' Heq]. vm_compute in Heq. discriminate Heq.
Qed.

(** ** [simplify] against the specification's wording *)

Lemma vector_of_assigned (p : list (option bool)) (lit : Z) (b : bool) :
  partial_value p lit = Some b -> var_value (vector_of p) lit = b.
Proof.
  unfold partial_value, var_value, vector_of. rewrite list_lookup_fmap.
  destruct (p !! Z.to_nat (Z.abs lit)) as [[b'|]|]; try discriminate.
  intros Heq. by inversion Heq.
Qed.

Lemma assigned_in_range (p : list (option bool)) (lit : Z) :
  is_Some (partial_value p lit) ->
  Z.abs lit < Z.of_nat (length (vector_of p)).
Proof.
  unfold partial_value, vector_of. rewrite length_map. intros [b Hb].
  destruct (p !! Z.to_nat (Z.abs lit)) as [o|] eqn:Hlook; [|discriminate].
  apply lookup_lt_Some in Hlook. lia.
Qed.

(** Where every variable of the formula has been fixed, the source and the
    specification agree. *)
Lemma simplify_agrees_on_assigned (f : Formula) (p : list (option bool)) :
  Forall (Forall (fun lit => is_Some (partial_value p lit))) f ->
  simplify f (vector_of p) = Done (spec_simplify f p).
Proof.
  intros Hall. rewrite simplify_spec.
  - f_equal. unfold spec_simplify.
    induction Hall as [|clause rest Hc Hrest IH]; [done|].
    cbn [List.filter].
    assert (clause_satisfied (vector_of p) clause
            = existsb (spec_lit_satisfied p) clause) as ->.
    { unfold clause_satisfied. clear -Hc.
      induction Hc as [|lit more [b Hb] Hmore IHc]; [done|].
      cbn [existsb]. rewrite IHc. f_equal.
      unfold lit_satisfied, spec_lit_satisfied.
      by rewrite Hb, (vector_of_assigned _ _ _ Hb). }
    destruct (existsb (spec_lit_satisfied p) clause); cbn [negb]; [exact IH|].
    cbn [map]. rewrite IH. f_equal. clear -Hc.
    induction Hc as [|lit more [b Hb] Hmore IHc]; [done|].
    cbn [List.filter]. rewrite IHc.
    assert (lit_falsified (vector_of p) lit = spec_lit_falsified p lit) as ->; [|done].
    unfold lit_falsified, spec_lit_falsified.
    by rewrite Hb, (vector_of_assigned _ _ _ Hb).
  - unfold in_bounds, clause_in_bounds.
    eapply Forall_impl; [exact Hall|]. intros clause Hc.
    eapply Forall_impl; [exact Hc|]. intros lit Hlit. cbv beta in *.
    by apply assigned_in_range.
Qed.

(** C3.  The source departs from the specification on unassigned
    variables.  With no variable fixed (the vector [is_satisfiable] starts
    from), [simplify] erases the literals 2 and 3 of the clause [2, 3] and
    leaves an empty clause, whereas the specified simplification leaves the
    literals of unassigned variables untouched and returns the clause as
    it is.  The other parts of the sentence hold: a satisfied clause is
    dropped, and a clause that loses all its literals is retained as an
    empty clause. *)
Theorem simplify_erases_unassigned_literals :
  let unassigned := [None; None; None; None] in
  vector_of unassigned = replicate 4 false
  /\ simplify [[2; 3]] (vector_of unassigned) = Done [[]]
  /\ spec_simplify [[2; 3]] unassigned = [[2; 3]].
Proof. repeat split. Qed.

(** ** Verdicts and witnesses of the search *)

(** C1.  The verdict of [is_satisfiable] disagrees with brute-force
    enumeration in both directions.  [[1], [2, 3]] is satisfiable (by
    x1 = x2 = true) and is reported unsatisfiable; the formula
    [[1, 2], [1, -2], [-1, 2], [-1, -2], [3, 4]] is falsified by every
    assignment and is reported satisfiable.  Both verdicts are returned for
    every amount of fuel from two on. *)
Theorem is_satisfiable_disagrees_with_brute_force :
  let sat_formula := [[1]; [2; 3]] in
  let unsat_formula := [[1; 2]; [1; -2]; [-1; 2]; [-1; -2]; [3; 4]] in
  (get_num_variables (solver_of sat_formula) = 3
   /\ brute_force_sat 3 sat_formula = true
   /\ formula_true [true; true; false] sat_formula = true
   /\ forall n, exists s',
        is_satisfiable (S (S n)) (solver_of sat_formula) = Done (false, s'))
  /\ (get_num_variables (solver_of unsat_formula) = 4
      /\ brute_force_sat 4 unsat_formula = false
      /\ (forall witness, formula_true witness unsat_formula = false)
      /\ forall n, exists s',
           is_satisfiable (S (S n)) (solver_of unsat_formula) = Done (true, s')).
Proof.
  cbv zeta. split; (split; [reflexivity|]); (split; [reflexivity|]); split.
  - reflexivity.
  - intros n. eexists. reflexivity.
  - intros witness.
    unfold formula_true, clause_true, literal_true.
    cbn -[value_of].
    change (- (-1)) with 1. change (- (-2)) with 2.
    by destruct (value_of witness 1), (value_of witness 2).
  - intros n. eexists. reflexivity.
Qed.

(** C2.  On [[1, 2], [3, 4]] the solver answers true, and the assignment it
    then returns, x1 = true and x2 = x3 = x4 = false, is total over the
    four variables but falsifies the clause [3, 4]. *)
Theorem satisfying_assignment_falsifies_clause :
  let f := [[1; 2]; [3; 4]] in
  let returned := [true; false; false; false] in
  forall n, exists s',
    is_satisfiable (S (S n)) (solver_of f) = Done (true, s')
    /\ get_satisfying_assignment (S (S n)) s' = Done (returned, s')
    /\ get_satisfying_assignment (S (S n)) (solver_of f) = Done (returned, s')
    /\ Z.of_nat (length returned) = get_num_variables (solver_of f)
    /\ clause_true returned [3; 4] = false
    /\ formula_true returned f = false.
Proof.
  cbv zeta. intros n. eexists. repeat split.
Qed.

(** ** The branching step *)

Lemma abs_fold (l : list Z) (s : list Z) :
  StronglySorted Z.lt s ->
  StronglySorted Z.lt (fold_left (fun s lit => set_insert (Z.abs lit) s) l s)
  /\ (forall v,
        v ∈ fold_left (fun s lit => set_insert (Z.abs lit) s) l s
        <-> v ∈ s \/ exists lit, lit ∈ l /\ v = Z.abs lit).
Proof.
  revert s. induction l as [|lit rest IH]; intros s Hs.
  - cbn. split; [done|]. intros v. split; [by left|].
    intros [?|(lit & Hin & _)]; [done|by inversion Hin].
  - cbn [fold_left].
    destruct (IH (set_insert (Z.abs lit) s) (set_insert_sorted _ _ Hs)) as [Hsorted Helem].
    split; [done|]. intros v. rewrite Helem, set_insert_elem. split.
    + intros [[->|?]|(lit' & Hin & ->)].
      * right. exists lit. split; [left|done].
      * by left.
      * right. exists lit'. split; [by right|done].
    + intros [?|(lit' & Hin & ->)]; [tauto|].
      apply elem_of_cons in Hin as [->|Hin]; [tauto|].
      right. by exists lit'.
Qed.

Lemma unassigned_vars_spec (f : Formula) :
  StronglySorted Z.lt (unassigned_vars f)
  /\ (forall v, v ∈ unassigned_vars f <-> exists lit, occurs lit f /\ v = Z.abs lit).
Proof.
  unfold unassigned_vars.
  rewrite (fold_left_concat (fun s lit => set_insert (Z.abs lit) s)).
  destruct (abs_fold (concat f) [] (SSorted_nil _)) as [Hsorted Helem].
  split; [done|]. intros v. rewrite Helem. split.
  - intros [Hin|(lit & Hin & ->)]; [by inversion Hin|].
    exists lit. by rewrite occurs_concat.
  - intros (lit & Hocc & ->). right. exists lit. by rewrite <- occurs_concat.
Qed.

(** [choose_variable] answers -1 exactly when no literal is left. *)
Lemma choose_variable_none (f : Formula) :
  (forall lit, ~ occurs lit f) -> choose_variable f = -1.
Proof.
  intros Hnone. unfold choose_variable.
  destruct (unassigned_vars_spec f) as [_ Helem].
  destruct (unassigned_vars f) as [|v rest]; [done|].
  destruct (proj1 (Helem v)) as (lit & Hocc & _); [left|].
  by destruct (Hnone lit).
Qed.

(** Otherwise it answers the least variable index that occurs. *)
Lemma choose_variable_least (f : Formula) (lit : Z) :
  occurs lit f ->
  (exists lit0, occurs lit0 f /\ choose_variable f = Z.abs lit0)
  /\ (forall lit', occurs lit' f -> choose_variable f <= Z.abs lit').
Proof.
  intros Hocc. unfold choose_variable.
  destruct (unassigned_vars_spec f) as [Hsorted Helem].
  destruct (unassigned_vars f) as [|v rest].
  - assert (Z.abs lit ∈ @nil Z) as Hin by (apply Helem; by exists lit).
    by inversion Hin.
  - split.
    + apply Helem. left.
    + intros lit' Hocc'.
      assert (Z.abs lit' ∈ v :: rest) as Hin by (apply Helem; by exists lit').
      apply elem_of_cons in Hin as [->|Hin]; [lia|].
      inversion Hsorted as [|? ? _ Hall]; subst.
      rewrite Forall_forall in Hall. specialize (Hall _ Hin). lia.
Qed.

Lemma no_literal_occurs (f : Formula) :
  concat f = [] -> forall lit, ~ occurs lit f.
Proof. intros Hnil lit. rewrite occurs_concat, Hnil. by inversion 1. Qed.

(** C6.  Consider an activation of [dpll] that reaches the branching step
    with formula [f2] and assignment [a2], [rec] being the recursive call.
    If no literal is left in [f2] the activation returns success.
    Otherwise the chosen variable [v] is the least variable index occurring
    in [f2], and the activation continues with the branching on [v], in
    which [v] is first set to true and [rec] is called on the formula
    simplified under that assignment.  If this call succeeds the
    activation returns success with the assignment of that call, whatever
    the recursive call would have answered on any other argument: the
    false polarity is not consulted.  If it fails, [v] is set to false in
    the assignment left by the failed call and the result of the second
    call is returned. *)
Theorem dpll_branching_order (fuel : nat)
  (rec : list (list Z) -> list bool -> Z -> outcome (bool * list bool))
  (f : list (list Z)) (a : list bool) (var : Z)
  (f2 : list (list Z)) (a2 : list bool) :
  reaches_branching fuel f a f2 a2 ->
  (concat f2 = [] -> dpll_body fuel rec f a var = Done (true, a2))
  /\ (forall lit, occurs lit f2 ->
      let v := choose_variable f2 in
      (exists lit0, occurs lit0 f2 /\ v = Z.abs lit0)
      /\ (forall lit', occurs lit' f2 -> v <= Z.abs lit')
      /\ dpll_body fuel rec f a var = dpll_branch rec f2 a2 v
      /\ forall a3 f3,
           vec_set a2 v true = Done a3 -> simplify f2 a3 = Done f3 ->
           (forall a4, rec f3 a3 (v + 1) = Done (true, a4) ->
              forall rec' : list (list Z) -> list bool -> Z -> outcome (bool * list bool),
                rec' f3 a3 (v + 1) = rec f3 a3 (v + 1) ->
                dpll_branch rec' f2 a2 v = Done (true, a4))
           /\ (forall a4, rec f3 a3 (v + 1) = Done (false, a4) ->
                 dpll_branch rec f2 a2 v
                 = (a5 ← vec_set a4 v false;
                    f5 ← simplify f2 a5;
                    rec f5 a5 (v + 1)))).
Proof.
  intros (Hne & Hnoempty & f1 & a1 & changed & Hunit & Hpure & Hne2).
  assert (dpll_body fuel rec f a var
          = (if choose_variable f2 =? -1 then Done (true, a2)
             else dpll_branch rec f2 a2 (choose_variable f2))) as Hbody.
  { unfold dpll_body. rewrite Hne, Hnoempty, Hunit.
    cbn [mbind outcome_bind]. rewrite Hpure. cbn [mbind outcome_bind].
    by rewrite Hne2. }
  split.
  - intros Hnil. rewrite Hbody.
    by rewrite (choose_variable_none f2 (no_literal_occurs f2 Hnil)).
  - intros lit Hocc v.
    destruct (choose_variable_least f2 lit Hocc) as [(lit0 & Hocc0 & Hv) Hleast].
    split; [by exists lit0|]. split; [exact Hleast|]. split.
    + rewrite Hbody. fold v.
      destruct (v =? -1) eqn:Hcmp; [|done].
      apply Z.eqb_eq in Hcmp. unfold v in Hcmp. lia.
    + intros a3 f3 Hset Hsimp. split.
      * intros a4 Hrec rec' Hagree. unfold dpll_branch.
        rewrite Hset. cbn [mbind outcome_bind]. rewrite Hsimp.
        cbn [mbind outcome_bind]. by rewrite Hagree, Hrec.
      * intros a4 Hrec. unfold dpll_branch.
        rewrite Hset. cbn [mbind outcome_bind]. rewrite Hsimp.
        cbn [mbind outcome_bind]. by rewrite Hrec.
Qed.

(** [[1, 2], [-1, -2]] has neither a unit clause nor a pure variable, so
    the first activation reaches the branching step with its input. *)
Lemma dpll_branching_order_witness :
  let f := [[1; 2]; [-1; -2]] in
  let a := [false; false; false] in
  reaches_branching 2 f a f a
  /\ (exists lit0, occurs lit0 f /\ choose_variable f = Z.abs lit0)
  /\ (forall lit', occurs lit' f -> choose_variable f <= Z.abs lit')
  /\ dpll_body 2 (dpll 1) f a 1 = dpll_branch (dpll 1) f a (choose_variable f).
Proof.
  cbv zeta.
  assert (reaches_branching 2 [[1; 2]; [-1; -2]] [false; false; false]
            [[1; 2]; [-1; -2]] [false; false; false]) as Hreach.
  { split; [reflexivity|]. split; [reflexivity|].
    exists [[1; 2]; [-1; -2]], [false; false; false], false.
    repeat split. }
  assert (occurs 1 [[1; 2]; [-1; -2]]) as Hocc.
  { apply occurs_concat. cbn. set_unfold. lia. }
  destruct (proj2 (dpll_branching_order 2 (dpll 1) _ _ 1 _ _ Hreach) 1 Hocc)
    as (Hex & Hleast & Hbody & _).
  split; [exact Hreach|]. split; [exact Hex|]. split; [exact Hleast|exact Hbody].
Defined.

(** The true polarity of the example above succeeds at once, and the
    search returns the assignment of that first attempt. *)
Example dpll_true_polarity_first (n : nat) :
  choose_variable [[1; 2]; [-1; -2]] = 1
  /\ dpll (S (S n)) [[1; 2]; [-1; -2]] [false; false; false] 1
     = Done (true, [false; true; false]).
Proof. split; reflexivity. Qed.

(** ** The random instance generator *)

Section RandomInstancesFacts.

Variable engine : Type.
Variable engine_init : Z -> engine.
Variable uniform_int : Z -> Z -> engine -> Z * engine.

Lemma random_literals_length (count : nat) (num_vars : Z) (gen : engine)
  (clause : list Z) :
  length (fst (random_literals engine uniform_int count num_vars gen clause))
  = (length clause + count)%nat.
Proof.
  revert gen clause. induction count as [|count IH]; intros gen clause.
  - cbn. lia.
  - cbn [random_literals].
    destruct (uniform_int 1 num_vars gen) as [var gen1].
    destruct (uniform_int 0 1 gen1) as [sign gen2].
    rewrite IH, length_app. cbn. lia.
Qed.

Lemma random_clauses_shape (count : nat) (num_vars : Z) (gen : engine)
  (formula : list (list Z)) :
  Forall (fun clause => length clause = 3%nat) formula ->
  length (random_clauses engine uniform_int count num_vars gen formula)
  = (length formula + count)%nat
  /\ Forall (fun clause => length clause = 3%nat)
            (random_clauses engine uniform_int count num_vars gen formula).
Proof.
  revert gen formula. induction count as [|count IH]; intros gen formula Hall.
  - cbn. split; [lia|done].
  - cbn [random_clauses].
    pose proof (random_literals_length 3 num_vars gen []) as Hlen.
    destruct (random_literals engine uniform_int 3 num_vars gen [])
      as [clause gen'].
    cbn in Hlen.
    destruct (IH gen' (formula ++ [clause])) as [Hl Hf].
    + apply Forall_app. split; [done|]. by repeat constructor.
    + split; [|done]. rewrite Hl, length_app. cbn. lia.
Qed.

(** The distribution delivers numbers of the range it was built for. *)
Hypothesis uniform_int_range :
  forall lo hi gen, lo <= hi -> lo <= fst (uniform_int lo hi gen) <= hi.

Lemma random_literals_range (count : nat) (num_vars : Z) (gen : engine)
  (clause : list Z) :
  1 <= num_vars ->
  Forall (fun lit => 1 <= Z.abs lit <= num_vars) clause ->
  Forall (fun lit => 1 <= Z.abs lit <= num_vars)
         (fst (random_literals engine uniform_int count num_vars gen clause)).
Proof.
  intros Hnv. revert gen clause.
  induction count as [|count IH]; intros gen clause Hall; [done|].
  cbn [random_literals].
  pose proof (uniform_int_range 1 num_vars gen Hnv) as Hvar.
  destruct (uniform_int 1 num_vars gen) as [var gen1].
  destruct (uniform_int 0 1 gen1) as [sign gen2].
  apply IH. apply Forall_app. split; [done|].
  constructor; [|constructor]. cbn in Hvar.
  destruct (negb (sign =? 0)); lia.
Qed.

Lemma random_clauses_range (count : nat) (num_vars : Z) (gen : engine)
  (formula : list (list Z)) :
  1 <= num_vars ->
  Forall (Forall (fun lit => 1 <= Z.abs lit <= num_vars)) formula ->
  Forall (Forall (fun lit => 1 <= Z.abs lit <= num_vars))
         (random_clauses engine uniform_int count num_vars gen formula).
Proof.
  intros Hnv. revert gen formula.
  induction count as [|count IH]; intros gen formula Hall; [done|].
  cbn [random_clauses].
  pose proof (random_literals_range 3 num_vars gen [] Hnv (List.Forall_nil _)) as Hc.
  destruct (random_literals engine uniform_int 3 num_vars gen [])
    as [clause gen'].
  apply IH. apply Forall_app. split; [done|]. by constructor.
Qed.

End RandomInstancesFacts.

(** The shape of generated instances.  [generate_random_3sat] takes the
    number of variables and the number of clauses only: there is no seed
    argument and the clause width is 3.  Whatever engine and distribution
    stand behind it, the result has [num_clauses] clauses of exactly three
    literals, and it is determined by the two arguments together with the
    state of the engine seeded from the random device; when the
    distribution respects its range and [num_vars] is at least 1, every
    literal is nonzero with a variable in [1..num_vars]. *)
Theorem generate_random_3sat_shape (engine : Type) (engine_init : Z -> engine)
  (uniform_int : Z -> Z -> engine -> Z * engine) (rd num_vars num_clauses : Z) :
  let f := generate_random_3sat engine engine_init uniform_int rd num_vars num_clauses in
  length f = Z.to_nat num_clauses
  /\ Forall (fun clause => length clause = 3%nat) f
  /\ (forall rd', engine_init rd' = engine_init rd ->
        generate_random_3sat engine engine_init uniform_int rd' num_vars num_clauses = f)
  /\ ((forall lo hi gen, lo <= hi -> lo <= fst (uniform_int lo hi gen) <= hi) ->
      1 <= num_vars ->
      Forall (Forall (fun lit => 1 <= Z.abs lit <= num_vars)) f).
Proof.
  cbv zeta. unfold generate_random_3sat.
  destruct (random_clauses_shape engine uniform_int (Z.to_nat num_clauses)
              num_vars (engine_init rd) [] (List.Forall_nil _)) as [Hlen Hshape].
  split; [exact Hlen|]. split; [exact Hshape|]. split.
  - intros rd' Heq. by rewrite Heq.
  - intros Hrange Hnv. by apply random_clauses_range.
Qed.

Lemma counter_uniform_int_range (lo hi gen : Z) :
  lo <= hi -> lo <= fst (counter_uniform_int lo hi gen) <= hi.
Proof.
  intros Hle. unfold counter_uniform_int. cbn [fst].
  pose proof (Z.mod_pos_bound gen (hi - lo + 1)). lia.
Qed.

(** The counter engine respects its range, so its literals are within
    bounds. *)
Lemma generate_random_3sat_shape_witness :
  Forall (Forall (fun lit => 1 <= Z.abs lit <= 5))
         (generate_random_3sat Z counter_init counter_uniform_int 42 5 10).
Proof.
  apply (proj2 (proj2 (proj2 (generate_random_3sat_shape Z counter_init
                                counter_uniform_int 42 5 10)))).
  - exact counter_uniform_int_range.
  - lia.
Defined.



(** ** More fuel never changes a result *)

Lemma unit_propagate_loop_mono (fuel : nat) (f : list (list Z)) (a : list bool)
  (r : list (list Z) * list bool) :
  unit_propagate_loop fuel f a = Done r ->
  unit_propagate_loop (S fuel) f a = Done r.
Proof.
  revert f a. induction fuel as [|fuel IH]; intros f a; [discriminate|].
  change (unit_propagate_loop (S (S fuel)) f a)
    with (match first_unit f with
          | None => Done (f, a)
          | Some lit =>
              assignment' ← vec_set a (Z.abs lit) (0 <? lit);
              formula' ← simplify f assignment';
              unit_propagate_loop (S fuel) formula' assignment'
          end).
  cbn [unit_propagate_loop]. destruct (first_unit f) as [lit|]; [|done].
  destruct (vec_set a (Z.abs lit) (0 <? lit)) as [a'| |]; try discriminate.
  cbn [mbind outcome_bind].
  destruct (simplify f a') as [f'| |]; try discriminate.
  cbn [mbind outcome_bind]. apply IH.
Qed.

Lemma unit_propagate_mono (fuel : nat) (f : list (list Z)) (a : list bool)
  (r : bool * list (list Z) * list bool) :
  unit_propagate fuel f a = Done r -> unit_propagate (S fuel) f a = Done r.
Proof.
  unfold unit_propagate.
  destruct (unit_propagate_loop fuel f a) as [[f' a']| |] eqn:Hloop;
    try discriminate.
  by rewrite (unit_propagate_loop_mono _ _ _ _ Hloop).
Qed.

Lemma dpll_branch_mono
  (rec rec' : list (list Z) -> list bool -> Z -> outcome (bool * list bool))
  (f : list (list Z)) (a : list bool) (v : Z) (r : bool * list bool) :
  (forall f0 a0 v0 r0, rec f0 a0 v0 = Done r0 -> rec' f0 a0 v0 = Done r0) ->
  dpll_branch rec f a v = Done r -> dpll_branch rec' f a v = Done r.
Proof.
  intros Hrec. unfold dpll_branch.
  destruct (vec_set a v true) as [a1| |]; try discriminate.
  cbn [mbind outcome_bind].
  destruct (simplify f a1) as [fc| |]; try discriminate.
  cbn [mbind outcome_bind].
  destruct (rec fc a1 (v + 1)) as [[result a2]| |] eqn:Hfirst; try discriminate.
  rewrite (Hrec _ _ _ _ Hfirst). cbn [mbind outcome_bind].
  destruct result; [done|].
  destruct (vec_set a2 v false) as [a3| |]; try discriminate.
  cbn [mbind outcome_bind].
  destruct (simplify f a3) as [fc'| |]; try discriminate.
  cbn [mbind outcome_bind]. apply Hrec.
Qed.

Lemma dpll_body_mono (fuel : nat)
  (rec rec' : list (list Z) -> list bool -> Z -> outcome (bool * list bool))
  (f : list (list Z)) (a : list bool) (v : Z) (r : bool * list bool) :
  (forall f0 a0 v0 r0, rec f0 a0 v0 = Done r0 -> rec' f0 a0 v0 = Done r0) ->
  dpll_body fuel rec f a v = Done r -> dpll_body (S fuel) rec' f a v = Done r.
Proof.
  intros Hrec. unfold dpll_body.
  destruct (clause_list_empty f); [done|].
  destruct (existsb clause_empty f); [done|].
  destruct (unit_propagate fuel f a) as [[[conflict f1] a1]| |] eqn:Hunit;
    try discriminate.
  rewrite (unit_propagate_mono _ _ _ _ Hunit). cbn [mbind outcome_bind].
  destruct conflict; [done|].
  destruct (pure_literal_eliminate f1 a1) as [[[changed f2] a2]| |];
    try discriminate.
  cbn [mbind outcome_bind].
  destruct (clause_list_empty f2); [done|].
  destruct (choose_variable f2 =? -1); [done|].
  by apply dpll_branch_mono.
Qed.

Lemma dpll_mono (fuel : nat) (f : list (list Z)) (a : list bool) (v : Z)
  (r : bool * list bool) :
  dpll fuel f a v = Done r -> dpll (S fuel) f a v = Done r.
Proof.
  revert f a v r. induction fuel as [|fuel IH]; intros f a v r; [discriminate|].
  change (dpll (S (S fuel)) f a v)
    with (dpll_body (S (S fuel)) (dpll (S fuel)) f a v).
  change (dpll (S fuel) f a v) with (dpll_body (S fuel) (dpll fuel) f a v).
  apply dpll_body_mono. exact IH.
Qed.

Lemma dpll_mono_add (n fuel : nat) (f : list (list Z)) (a : list bool) (v : Z)
  (r : bool * list bool) :
  dpll fuel f a v = Done r -> dpll (n + fuel) f a v = Done r.
Proof.
  intros Hd. induction n as [|n IH]; [exact Hd|].
  change (S n + fuel)%nat with (S (n + fuel)). by apply dpll_mono.
Qed.

(** ** The search returns on well-formed input *)

Lemma all_empty_nonzero (f : list (list Z)) :
  Forall (fun clause => clause = []) f -> nonzero_literals f.
Proof.
  intros Hall. unfold nonzero_literals.
  eapply Forall_impl; [exact Hall|]. intros clause ->. constructor.
Qed.

Lemma all_empty_in_bounds (f : list (list Z)) (a : list bool) :
  Forall (fun clause => clause = []) f -> in_bounds f a.
Proof.
  intros Hall. unfold in_bounds, clause_in_bounds.
  eapply Forall_impl; [exact Hall|]. intros clause ->. constructor.
Qed.

(** A formula made of empty clauses is decided by the first two tests of
    [dpll]. *)
Lemma dpll_all_empty (n : nat) (f : list (list Z)) (a : list bool) (v : Z) :
  Forall (fun clause => clause = []) f ->
  dpll (S n) f a v = Done (clause_list_empty f, a).
Proof.
  intros Hall. cbn [dpll]. unfold dpll_body.
  destruct Hall as [|clause rest -> _]; [done|]. done.
Qed.

Lemma simplify_total (f : list (list Z)) (a : list bool) :
  nonzero_literals f -> in_bounds f a ->
  exists f', simplify f a = Done f' /\ Forall (fun clause => clause = []) f'.
Proof.
  intros Hnz Hb.
  destruct (simplify f a) as [f'| |] eqn:Hs;
    try (rewrite (simplify_spec _ _ Hb) in Hs; discriminate).
  exists f'. split; [done|]. by eapply simplify_nonzero_all_empty.
Qed.

Lemma dpll_branch_total (f : list (list Z)) (a : list bool) (v : Z) :
  nonzero_literals f -> in_bounds f a -> 0 <= v < Z.of_nat (length a) ->
  exists r, dpll_branch (dpll 1) f a v = Done r.
Proof.
  intros Hnz Hb Hrange. unfold dpll_branch.
  rewrite (vec_set_in_range _ _ _ Hrange). cbn [mbind outcome_bind].
  set (a1 := <[Z.to_nat v := true]> a).
  destruct (simplify_total f a1 Hnz (in_bounds_insert _ _ _ _ Hb))
    as (fc & -> & Hall).
  cbn [mbind outcome_bind]. rewrite (dpll_all_empty 0 fc a1 (v + 1) Hall).
  cbn [mbind outcome_bind].
  destruct (clause_list_empty fc); [by eexists|].
  assert (0 <= v < Z.of_nat (length a1)) as Hrange1
    by (unfold a1; by rewrite length_insert).
  rewrite (vec_set_in_range _ _ _ Hrange1). cbn [mbind outcome_bind].
  set (a2 := <[Z.to_nat v := false]> a1).
  assert (in_bounds f a2) as Hb2 by (unfold a2, a1; by do 2 apply in_bounds_insert).
  destruct (simplify_total f a2 Hnz Hb2) as (fc' & -> & Hall').
  cbn [mbind outcome_bind]. rewrite (dpll_all_empty 0 fc' a2 (v + 1) Hall').
  by eexists.
Qed.

Lemma pure_choice_in_range (f : list (list Z)) (a : list bool) (v : Z) (value : bool) :
  in_bounds f a -> pure_choice f = Some (v, value) ->
  0 <= v < Z.of_nat (length a).
Proof.
  intros Hb. unfold pure_choice.
  pose proof (collect_literals_spec f) as Hspec.
  destruct (collect_literals f) as [pos neg].
  destruct Hspec as (_ & _ & Hep & Hen).
  destruct (find (fun var => negb (set_find var neg)) pos) as [u|] eqn:Hfp.
  - intros Heq. inversion Heq; subst.
    apply find_Some_elem in Hfp as [Hin _]. apply Hep in Hin as [Hpos Hocc].
    pose proof (occurs_in_bounds _ _ _ Hb Hocc). lia.
  - destruct (find (fun var => negb (set_find var pos)) neg) as [u|] eqn:Hfn;
      [|discriminate].
    intros Heq. inversion Heq; subst.
    apply find_Some_elem in Hfn as [Hin _]. apply Hen in Hin as [Hpos Hocc].
    pose proof (occurs_in_bounds _ _ _ Hb Hocc). lia.
Qed.

Lemma pure_literal_eliminate_total (f : list (list Z)) (a : list bool) :
  nonzero_literals f -> in_bounds f a ->
  exists changed f' a',
    pure_literal_eliminate f a = Done (changed, f', a')
    /\ nonzero_literals f' /\ in_bounds f' a'.
Proof.
  intros Hnz Hb. destruct (pure_choice f) as [[v value]|] eqn:Hchoice.
  - pose proof (pure_choice_in_range _ _ _ _ Hb Hchoice) as Hrange.
    destruct (pure_literal_eliminate_fixes _ _ _ _ Hb Hrange Hchoice)
      as (f' & Hrun & Hs).
    pose proof (simplify_nonzero_all_empty _ _ _ Hnz
                  (in_bounds_insert _ _ _ _ Hb) Hs) as Hall.
    exists true, f', (<[Z.to_nat v := value]> a).
    split; [done|]. split; [by apply all_empty_nonzero|by apply all_empty_in_bounds].
  - exists false, f, a. unfold pure_literal_eliminate. by rewrite Hchoice.
Qed.

Lemma choose_variable_in_range (f : list (list Z)) (a : list bool) :
  in_bounds f a ->
  choose_variable f = -1 \/ 0 <= choose_variable f < Z.of_nat (length a).
Proof.
  intros Hb. unfold choose_variable.
  destruct (unassigned_vars_spec f) as [_ Helem].
  destruct (unassigned_vars f) as [|v rest]; [by left|].
  right. destruct (proj1 (Helem v)) as (lit & Hocc & ->); [left|].
  by apply (occurs_in_bounds _ _ _ Hb).
Qed.

(** On a formula of nonzero literals and a vector covering its variables
    [dpll] returns with two units of fuel. *)
Lemma dpll_total (f : list (list Z)) (a : list bool) (v : Z) :
  nonzero_literals f -> in_bounds f a ->
  exists r, dpll 2 f a v = Done r.
Proof.
  intros Hnz Hb.
  change (dpll 2 f a v) with (dpll_body 2 (dpll 1) f a v). unfold dpll_body.
  destruct (clause_list_empty f); [by eexists|].
  destruct (existsb clause_empty f); [by eexists|].
  destruct (unit_propagate_loop_total f a Hnz Hb)
    as (f1 & a1 & Hloop & _ & _ & Hnone & Hsome).
  unfold unit_propagate. rewrite (Hloop 0%nat). cbn [mbind outcome_bind].
  destruct (existsb clause_empty f1); [by eexists|].
  assert (nonzero_literals f1 /\ in_bounds f1 a1) as [Hnz1 Hb1].
  { destruct (first_unit f) as [lit|].
    - destruct (Hsome lit eq_refl) as (_ & _ & Hall).
      split; [by apply all_empty_nonzero|by apply all_empty_in_bounds].
    - by destruct (Hnone eq_refl) as [-> ->]. }
  destruct (pure_literal_eliminate_total f1 a1 Hnz1 Hb1)
    as (changed & f2 & a2 & -> & Hnz2 & Hb2).
  cbn [mbind outcome_bind].
  destruct (clause_list_empty f2); [by eexists|].
  destruct (choose_variable_in_range f2 a2 Hb2) as [->|Hrange]; [by eexists|].
  destruct (choose_variable f2 =? -1); [by eexists|].
  by apply dpll_branch_total.
Qed.

Lemma dpll_total_any_fuel (f : list (list Z)) (a : list bool) (v : Z) :
  nonzero_literals f -> in_bounds f a ->
  exists r, forall n, dpll (S (S n)) f a v = Done r.
Proof.
  intros Hnz Hb. destruct (dpll_total f a v Hnz Hb) as [r Hr].
  exists r. intros n.
  replace (S (S n)) with (n + 2)%nat by lia. by apply dpll_mono_add.
Qed.

(** ** Solvers filled from a formula *)

Lemma fill_solver (f : list (list Z)) (s : SATSolver) :
  num_variables_ s = max_magnitude (formula_ s) ->
  formula_ (fold_left add_clause f s) = formula_ s ++ f
  /\ num_variables_ (fold_left add_clause f s)
     = max_magnitude (formula_ s ++ f).
Proof.
  revert s. induction f as [|clause rest IH]; intros s Hinv.
  - cbn. by rewrite app_nil_r.
  - cbn [fold_left].
    destruct (IH (add_clause s clause) (store_invariant_add _ _ Hinv)) as [Hf Hn].
    cbn [add_clause formula_] in Hf, Hn.
    rewrite <- app_assoc in Hf, Hn. done.
Qed.

Lemma solver_of_spec (f : list (list Z)) :
  formula_ (solver_of f) = f /\ num_variables_ (solver_of f) = max_magnitude f.
Proof. unfold solver_of. by apply (fill_solver f new_solver). Qed.

Lemma magnitude_le_max (f : list (list Z)) (lit : Z) :
  lit ∈ concat f -> Z.abs lit <= max_magnitude f.
Proof.
  unfold max_magnitude. induction (concat f) as [|x l IH]; [by inversion 1|].
  intros Hin. cbn [map foldr].
  apply elem_of_cons in Hin as [->|Hin]; [lia|]. specialize (IH Hin). lia.
Qed.

(** The vector built by [is_satisfiable] has a slot for every variable of
    the stored formula. *)
Lemma initial_vector_in_bounds (f : list (list Z)) :
  in_bounds f (replicate (Z.to_nat (max_magnitude f + 1)) false).
Proof.
  unfold in_bounds, clause_in_bounds. rewrite Forall_forall. intros clause Hc.
  rewrite Forall_forall. intros lit Hl. rewrite length_replicate.
  assert (Z.abs lit <= max_magnitude f) as Hle.
  { apply magnitude_le_max. apply occurs_concat. unfold occurs.
    apply Exists_exists. by exists clause. }
  lia.
Qed.

Lemma max_magnitude_lt (f : list (list Z)) :
  bounded_literals f -> max_magnitude f < INT_MAX.
Proof.
  intros Hall. unfold max_magnitude.
  induction Hall as [|clause rest Hc Hrest IH]; [by cbn|].
  cbn [concat]. rewrite map_app, foldr_max_app.
  assert (foldr Z.max 0 (map Z.abs clause) < INT_MAX) as Hcl.
  { clear -Hc. induction Hc as [|lit more Hl Hm IHc]; [by cbn|]. cbn. lia. }
  lia.
Qed.

(** On every formula of nonzero literals of magnitude below [INT_MAX],
    [is_satisfiable] returns, and its verdict does not depend on the fuel
    from two units on. *)
Lemma is_satisfiable_total (f : list (list Z)) :
  nonzero_literals f -> bounded_literals f ->
  exists verdict s',
    forall n, is_satisfiable (S (S n)) (solver_of f) = Done (verdict, s').
Proof.
  intros Hnz Hbound. destruct (solver_of_spec f) as [Hf Hn].
  unfold is_satisfiable. rewrite Hf, Hn.
  destruct (clause_list_empty f); [by exists true, (solver_of f)|].
  rewrite (proj2 (Z.ltb_lt _ _) (max_magnitude_lt f Hbound)).
  destruct (dpll_total_any_fuel f _ 1 Hnz (initial_vector_in_bounds f))
    as [[result a'] Hd].
  eexists _, _. intros n. rewrite Hd. cbn [mbind outcome_bind]. reflexivity.
Qed.

(** ** The equivalence check *)

(** C7.  [are_equivalent] answers by comparing the two verdicts of the
    search: false when exactly one formula is found satisfiable, true when
    both are found unsatisfiable or both satisfiable.  On formulas of
    nonzero literals of magnitude below [INT_MAX] both searches return, so
    the answer is always delivered.  In particular [[1], [-1]] and
    [[2], [-2]], both found unsatisfiable, are declared equivalent. *)
Theorem are_equivalent_compares_verdicts :
  (forall fuel f1 f2 sat1 s1 sat2 s2,
     is_satisfiable fuel (solver_of f1) = Done (sat1, s1) ->
     is_satisfiable fuel (solver_of f2) = Done (sat2, s2) ->
     are_equivalent fuel f1 f2 = Done (Bool.eqb sat1 sat2))
  /\ (forall f1 f2,
        nonzero_literals f1 -> bounded_literals f1 ->
        nonzero_literals f2 -> bounded_literals f2 ->
        exists sat1 s1 sat2 s2, forall n,
          is_satisfiable (S (S n)) (solver_of f1) = Done (sat1, s1)
          /\ is_satisfiable (S (S n)) (solver_of f2) = Done (sat2, s2)
          /\ are_equivalent (S (S n)) f1 f2 = Done (Bool.eqb sat1 sat2))
  /\ (forall n,
        (exists s1, is_satisfiable (S (S n)) (solver_of [[1]; [-1]])
                    = Done (false, s1))
        /\ (exists s2, is_satisfiable (S (S n)) (solver_of [[2]; [-2]])
                       = Done (false, s2))
        /\ are_equivalent (S (S n)) [[1]; [-1]] [[2]; [-2]] = Done true).
Proof.
  assert (forall fuel f1 f2 sat1 s1 sat2 s2,
            is_satisfiable fuel (solver_of f1) = Done (sat1, s1) ->
            is_satisfiable fuel (solver_of f2) = Done (sat2, s2) ->
            are_equivalent fuel f1 f2 = Done (Bool.eqb sat1 sat2)) as Hcompare.
  { intros fuel f1 f2 sat1 s1 sat2 s2 H1 H2. unfold are_equivalent.
    rewrite H1. cbn [mbind outcome_bind]. rewrite H2. cbn [mbind outcome_bind].
    by destruct sat1, sat2. }
  split; [exact Hcompare|]. split.
  - intros f1 f2 Hnz1 Hb1 Hnz2 Hb2.
    destruct (is_satisfiable_total f1 Hnz1 Hb1) as (sat1 & s1 & H1).
    destruct (is_satisfiable_total f2 Hnz2 Hb2) as (sat2 & s2 & H2).
    exists sat1, s1, sat2, s2. intros n.
    split; [apply H1|]. split; [apply H2|].
    by apply (Hcompare _ _ _ _ s1 _ s2).
  - intros n. split; [eexists; reflexivity|]. split; [eexists; reflexivity|].
    reflexivity.
Qed.

(** One formula found satisfiable, the other not. *)
Lemma are_equivalent_compares_verdicts_witness :
  are_equivalent 2 [[1]] [[1]; [-1]] = Done false.
Proof.
  apply (proj1 are_equivalent_compares_verdicts 2%nat [[1]] [[1]; [-1]]
           true (mkSATSolver [[1]] 1 [false; true] true)
           false (mkSATSolver [[1]; [-1]] 1 [false; true] false)).
  - reflexivity.
  - reflexivity.
Defined.


(** * Further properties of the code *)

(** ** The search stays inside the vector *)

Lemma in_bounds_same_length (f : list (list Z)) (a a' : list bool) :
  length a' = length a -> in_bounds f a -> in_bounds f a'.
Proof.
  intros Hlen Hb. unfold in_bounds, clause_in_bounds in *.
  eapply Forall_impl; [exact Hb|]. intros clause Hc.
  eapply Forall_impl; [exact Hc|]. intros lit Hlit. cbv beta in *.
  by rewrite Hlen.
Qed.

Lemma filter_Forall {A : Type} (P : A -> Prop) (p : A -> bool) (l : list A) :
  Forall P l -> Forall P (List.filter p l).
Proof.
  induction 1 as [|x l Hx Hl IH]; [constructor|].
  cbn [List.filter]. destruct (p x); [by constructor|done].
Qed.

(** What [simplify] leaves is made of literals of its input. *)
Lemma simplify_in_bounds (f f' : list (list Z)) (a : list bool) :
  in_bounds f a -> simplify f a = Done f' -> in_bounds f' a.
Proof.
  intros Hb Hs. rewrite (simplify_spec _ _ Hb) in Hs. inversion Hs as [Hf'].
  clear Hs Hf'. unfold in_bounds in *.
  apply Forall_fmap. apply filter_Forall.
  eapply Forall_impl; [exact Hb|]. intros clause Hc. cbv beta.
  unfold compose. by apply filter_Forall.
Qed.

Lemma simplify_done (f : list (list Z)) (a : list bool) :
  in_bounds f a -> exists f', simplify f a = Done f' /\ in_bounds f' a.
Proof.
  intros Hb. destruct (simplify f a) as [f'| |] eqn:Hs;
    try (rewrite (simplify_spec _ _ Hb) in Hs; discriminate).
  exists f'. split; [done|]. by eapply simplify_in_bounds.
Qed.

Lemma unit_propagate_loop_safe (fuel : nat) (f : list (list Z)) (a : list bool) :
  in_bounds f a ->
  unit_propagate_loop fuel f a = OutOfFuel
  \/ exists f' a',
       unit_propagate_loop fuel f a = Done (f', a')
       /\ length a' = length a /\ in_bounds f' a'.
Proof.
  revert f a. induction fuel as [|fuel IH]; intros f a Hb; [by left|].
  cbn [unit_propagate_loop]. destruct (first_unit f) as [lit|] eqn:Hu.
  - pose proof (first_unit_Some _ _ Hu) as Hin.
    assert (0 <= Z.abs lit < Z.of_nat (length a)) as Hrange.
    { eapply literal_in_bounds; [exact Hb|exact Hin|left]. }
    rewrite (vec_set_in_range _ _ _ Hrange). cbn [mbind outcome_bind].
    destruct (simplify_done f _ (in_bounds_insert _ _ (Z.to_nat (Z.abs lit))
                                   (0 <? lit) Hb)) as (f1 & -> & Hb1).
    cbn [mbind outcome_bind].
    destruct (IH f1 _ Hb1) as [->|(f' & a' & -> & Hlen & Hb')]; [by left|].
    right. exists f', a'. split; [done|]. split; [|done].
    by rewrite Hlen, length_insert.
  - right. by exists f, a.
Qed.

Lemma pure_literal_eliminate_safe (f : list (list Z)) (a : list bool) :
  in_bounds f a ->
  exists changed f' a',
    pure_literal_eliminate f a = Done (changed, f', a')
    /\ length a' = length a /\ in_bounds f' a'.
Proof.
  intros Hb. destruct (pure_choice f) as [[v value]|] eqn:Hchoice.
  - pose proof (pure_choice_in_range _ _ _ _ Hb Hchoice) as Hrange.
    destruct (pure_literal_eliminate_fixes _ _ _ _ Hb Hrange Hchoice)
      as (f' & Hrun & Hs).
    exists true, f', (<[Z.to_nat v := value]> a).
    split; [done|]. split; [apply length_insert|].
    eapply simplify_in_bounds; [|exact Hs]. by apply in_bounds_insert.
  - exists false, f, a. unfold pure_literal_eliminate. by rewrite Hchoice.
Qed.

Lemma dpll_branch_safe
  (rec : list (list Z) -> list bool -> Z -> outcome (bool * list bool))
  (f : list (list Z)) (a : list bool) (v : Z) :
  (forall f0 a0 v0, in_bounds f0 a0 ->
     rec f0 a0 v0 = OutOfFuel
     \/ exists r a', rec f0 a0 v0 = Done (r, a') /\ length a' = length a0) ->
  in_bounds f a -> 0 <= v < Z.of_nat (length a) ->
  dpll_branch rec f a v = OutOfFuel
  \/ exists r a', dpll_branch rec f a v = Done (r, a') /\ length a' = length a.
Proof.
  intros Hrec Hb Hrange. unfold dpll_branch.
  rewrite (vec_set_in_range _ _ _ Hrange). cbn [mbind outcome_bind].
  destruct (simplify_done f _ (in_bounds_insert _ _ (Z.to_nat v) true Hb))
    as (fc & -> & Hbc).
  cbn [mbind outcome_bind].
  destruct (Hrec fc _ (v + 1) Hbc) as [->|(r & a2 & -> & Hlen2)]; [by left|].
  cbn [mbind outcome_bind]. rewrite length_insert in Hlen2.
  destruct r; [right; by exists true, a2|].
  assert (0 <= v < Z.of_nat (length a2)) as Hrange2 by (by rewrite Hlen2).
  rewrite (vec_set_in_range _ _ _ Hrange2). cbn [mbind outcome_bind].
  assert (in_bounds f (<[Z.to_nat v := false]> a2)) as Hb3.
  { apply in_bounds_insert. by apply (in_bounds_same_length f a). }
  destruct (simplify_done f _ Hb3) as (fc' & -> & Hbc').
  cbn [mbind outcome_bind].
  destruct (Hrec fc' _ (v + 1) Hbc') as [->|(r & a4 & -> & Hlen4)]; [by left|].
  right. exists r, a4. split; [done|].
  by rewrite Hlen4, length_insert.
Qed.

(** Whatever the literals are, [dpll] never indexes outside a vector that
    covers the variables of the formula, and it hands the vector back with
    its size unchanged. *)
Lemma dpll_safe (fuel : nat) (f : list (list Z)) (a : list bool) (v : Z) :
  in_bounds f a ->
  dpll fuel f a v = OutOfFuel
  \/ exists r a', dpll fuel f a v = Done (r, a') /\ length a' = length a.
Proof.
  revert f a v. induction fuel as [|fuel IH]; intros f a v Hb; [by left|].
  cbn [dpll]. unfold dpll_body.
  destruct (clause_list_empty f); [right; by exists true, a|].
  destruct (existsb clause_empty f); [right; by exists false, a|].
  unfold unit_propagate.
  destruct (unit_propagate_loop_safe (S fuel) f a Hb)
    as [->|(f1 & a1 & -> & Hlen1 & Hb1)]; [by left|].
  cbn [mbind outcome_bind].
  destruct (existsb clause_empty f1); [right; by exists false, a1|].
  destruct (pure_literal_eliminate_safe f1 a1 Hb1)
    as (changed & f2 & a2 & -> & Hlen2 & Hb2).
  cbn [mbind outcome_bind].
  assert (length a2 = length a) as Hlen by congruence.
  destruct (clause_list_empty f2); [right; by exists true, a2|].
  destruct (choose_variable_in_range f2 a2 Hb2) as [->|Hrange].
  { right. by exists true, a2. }
  destruct (choose_variable f2 =? -1); [right; by exists true, a2|].
  destruct (dpll_branch_safe (dpll fuel) f2 a2 (choose_variable f2)
              (fun f0 a0 v0 Hb0 => IH f0 a0 v0 Hb0) Hb2 Hrange)
    as [->|(r & a' & -> & Hlen')]; [by left|].
  right. exists r, a'. split; [done|]. congruence.
Qed.

(** ** Invariants of reachable solver states *)

Lemma list_nonempty_flag (f : list (list Z)) :
  f <> [] -> clause_list_empty f = false.
Proof. by destruct f. Qed.

Lemma is_satisfiable_nonempty (fuel : nat) (s s' : SATSolver) (verdict : bool) :
  formula_ s <> [] ->
  is_satisfiable fuel s = Done (verdict, s') ->
  dpll fuel (formula_ s) (initial_vector s) 1 = Done (verdict, assignment_ s')
  /\ formula_ s' = formula_ s
  /\ num_variables_ s' = num_variables_ s
  /\ has_satisfying_assignment_ s' = verdict.
Proof.
  intros Hne. unfold is_satisfiable, initial_vector.
  destruct (formula_ s) as [|clause rest] eqn:Hf; [done|].
  cbn [clause_list_empty].
  destruct (num_variables_ s <? INT_MAX); [|discriminate].
  destruct (dpll fuel _ _ 1) as [[result a']| |]; cbn [mbind outcome_bind];
    try discriminate.
  intros Heq. inversion Heq; subst. done.
Qed.

(** A search that returned did not overflow when sizing the vector. *)
Lemma is_satisfiable_guard (fuel : nat) (s s' : SATSolver) (verdict : bool) :
  formula_ s <> [] ->
  is_satisfiable fuel s = Done (verdict, s') ->
  (num_variables_ s <? INT_MAX) = true.
Proof.
  intros Hne. unfold is_satisfiable.
  rewrite (list_nonempty_flag _ Hne).
  by destruct (num_variables_ s <? INT_MAX).
Qed.

Lemma is_satisfiable_run (fuel : nat) (s : SATSolver) :
  formula_ s <> [] -> (num_variables_ s <? INT_MAX) = true ->
  is_satisfiable fuel s
  = ('(result, assignment') ← dpll fuel (formula_ s) (initial_vector s) 1;
     Done (result,
           mkSATSolver (formula_ s) (num_variables_ s) assignment' result)).
Proof.
  intros Hne Hguard. unfold is_satisfiable, initial_vector.
  by rewrite (list_nonempty_flag _ Hne), Hguard.
Qed.

Lemma is_satisfiable_empty (fuel : nat) (s : SATSolver) :
  formula_ s = [] -> is_satisfiable fuel s = Done (true, s).
Proof. intros Hf. unfold is_satisfiable. by rewrite Hf. Qed.

Lemma get_satisfying_assignment_state (fuel : nat) (s s' : SATSolver)
  (result : list bool) :
  get_satisfying_assignment fuel s = Done (result, s') ->
  (has_satisfying_assignment_ s = true /\ s' = s)
  \/ (has_satisfying_assignment_ s = false
      /\ exists verdict, is_satisfiable fuel s = Done (verdict, s')).
Proof.
  unfold get_satisfying_assignment.
  destruct (has_satisfying_assignment_ s).
  - destruct (vec_from_second (assignment_ s)); cbn [mbind outcome_bind];
      try discriminate.
    intros Heq. inversion Heq. by left.
  - destruct (is_satisfiable fuel s) as [[sat s1]| |];
      cbn [mbind outcome_bind]; try discriminate.
    intros Heq. right. split; [done|]. exists sat.
    destruct sat.
    + destruct (vec_from_second (assignment_ s1)); cbn [mbind outcome_bind] in Heq;
        try discriminate.
      by inversion Heq.
    + by inversion Heq.
Qed.

(** In every reachable state the counter is the largest magnitude stored,
    and a raised cache flag means that the cached vector is the one a
    search on the stored formula ends with. *)
Lemma reachable_invariant (s : SATSolver) :
  reachable s ->
  num_variables_ s = max_magnitude (formula_ s)
  /\ (has_satisfying_assignment_ s = true ->
      formula_ s <> []
      /\ exists fuel,
           dpll fuel (formula_ s) (initial_vector s) 1
           = Done (true, assignment_ s)).
Proof.
  assert (forall s fuel verdict s',
            (num_variables_ s = max_magnitude (formula_ s)
             /\ (has_satisfying_assignment_ s = true ->
                 formula_ s <> []
                 /\ exists fuel,
                      dpll fuel (formula_ s) (initial_vector s) 1
                      = Done (true, assignment_ s))) ->
            is_satisfiable fuel s = Done (verdict, s') ->
            num_variables_ s' = max_magnitude (formula_ s')
            /\ (has_satisfying_assignment_ s' = true ->
                formula_ s' <> []
                /\ exists fuel,
                     dpll fuel (formula_ s') (initial_vector s') 1
                     = Done (true, assignment_ s'))) as Hquery.
  { intros s0 fuel verdict s' Hinv Hq.
    destruct (formula_ s0) as [|clause rest] eqn:Hf.
    - rewrite (is_satisfiable_empty fuel s0 Hf) in Hq. inversion Hq; subst.
      by rewrite Hf.
    - assert (formula_ s0 <> []) as Hne by (by rewrite Hf).
      destruct (is_satisfiable_nonempty _ _ _ _ Hne Hq) as (Hd & Hf' & Hn' & Hh').
      unfold initial_vector in *. rewrite Hf', Hn', Hh'.
      split; [rewrite Hf; by destruct Hinv|].
      intros ->. split; [by rewrite Hf|]. by exists fuel. }
  induction 1 as [|s clause Hr IH|s Hr IH|s fuel verdict s' Hr IH Hq
                 |s fuel result s' Hr IH Hw].
  - split; [reflexivity|discriminate].
  - split; [by apply store_invariant_add; destruct IH|discriminate].
  - split; [reflexivity|discriminate].
  - by eapply Hquery.
  - apply get_satisfying_assignment_state in Hw
      as [[_ ->]|[_ [verdict Hq]]]; [done|].
    by eapply Hquery.
Qed.

(** A raised cache flag also means that the counter was small enough for
    the vector to be sized. *)
Lemma reachable_guard (s : SATSolver) :
  reachable s -> has_satisfying_assignment_ s = true ->
  (num_variables_ s <? INT_MAX) = true.
Proof.
  assert (forall s fuel verdict s',
            (has_satisfying_assignment_ s = true ->
             (num_variables_ s <? INT_MAX) = true) ->
            is_satisfiable fuel s = Done (verdict, s') ->
            has_satisfying_assignment_ s' = true ->
            (num_variables_ s' <? INT_MAX) = true) as Hquery.
  { intros s0 fuel verdict s' Hinv Hq Hh.
    destruct (decide (formula_ s0 = [])) as [Hf|Hne].
    - rewrite (is_satisfiable_empty fuel s0 Hf) in Hq. inversion Hq; subst.
      by apply Hinv.
    - destruct (is_satisfiable_nonempty _ _ _ _ Hne Hq) as (_ & _ & Hn' & _).
      rewrite Hn'. by eapply is_satisfiable_guard. }
  induction 1 as [|s clause Hr IH|s Hr IH|s fuel verdict s' Hr IH Hq
                 |s fuel result s' Hr IH Hw]; try discriminate.
  - by eapply Hquery.
  - apply get_satisfying_assignment_state in Hw
      as [[_ ->]|[_ [verdict Hq]]]; [done|].
    by eapply Hquery.
Qed.

Lemma reachable_counter_small (s : SATSolver) :
  reachable s -> bounded_literals (formula_ s) ->
  (num_variables_ s <? INT_MAX) = true.
Proof.
  intros Hr Hbound. destruct (reachable_invariant s Hr) as [-> _].
  apply Z.ltb_lt. by apply max_magnitude_lt.
Qed.

Lemma reachable_vector_length (s : SATSolver) :
  reachable s -> has_satisfying_assignment_ s = true ->
  Z.of_nat (length (assignment_ s)) = num_variables_ s + 1.
Proof.
  intros Hr Hhas. destruct (reachable_invariant s Hr) as [Hn Hcache].
  destruct (Hcache Hhas) as (_ & fuel & Hd).
  destruct (dpll_safe fuel (formula_ s) (initial_vector s) 1)
    as [Hout|(r & a' & Hd' & Hlen)].
  - unfold initial_vector. rewrite Hn. apply initial_vector_in_bounds.
  - congruence.
  - rewrite Hd in Hd'. inversion Hd'; subst. rewrite Hlen.
    unfold initial_vector. rewrite length_replicate.
    pose proof (max_magnitude_nonneg (formula_ s)). lia.
Qed.

Lemma initial_vector_covers (s : SATSolver) :
  reachable s -> in_bounds (formula_ s) (initial_vector s).
Proof.
  intros Hr. destruct (reachable_invariant s Hr) as [Hn _].
  unfold initial_vector. rewrite Hn. apply initial_vector_in_bounds.
Qed.

Lemma vec_from_second_tail (v : list bool) :
  v <> [] -> vec_from_second v = Done (tail v).
Proof. by destruct v. Qed.

Lemma nonempty_of_length (v : list bool) (n : Z) :
  0 <= n -> Z.of_nat (length v) = n + 1 -> v <> [] /\ Z.of_nat (length (tail v)) = n.
Proof. destruct v; cbn [length tail]; intros; split; [lia|lia|done|lia]. Qed.

(** X5.  In every state the public operations can produce whose stored
    literals, 0 included, have a magnitude below [INT_MAX],
    [is_satisfiable] never indexes the assignment vector out of bounds and
    never overflows, and as long as a clause is stored neither does
    [get_satisfying_assignment]: the only outcomes are a normal return and,
    for the model, exhausted fuel. *)
Theorem search_never_out_of_bounds (fuel : nat) (s : SATSolver) :
  reachable s -> bounded_literals (formula_ s) ->
  is_satisfiable fuel s <> Undefined
  /\ (formula_ s <> [] -> get_satisfying_assignment fuel s <> Undefined).
Proof.
  intros Hr Hbound.
  pose proof (reachable_counter_small s Hr Hbound) as Hguard.
  assert (is_satisfiable fuel s = OutOfFuel
          \/ exists verdict s', is_satisfiable fuel s = Done (verdict, s'))
    as Hquery.
  { destruct (decide (formula_ s = [])) as [Hf|Hne].
    - right. exists true, s. by apply is_satisfiable_empty.
    - rewrite (is_satisfiable_run fuel s Hne Hguard).
      destruct (dpll_safe fuel (formula_ s) (initial_vector s) 1
                  (initial_vector_covers s Hr)) as [Hout|(r & a' & Hd & _)].
      + left. by rewrite Hout.
      + right. rewrite Hd. cbn [mbind outcome_bind]. by eexists _, _. }
  split.
  - destruct Hquery as [->|(verdict & s' & ->)]; discriminate.
  - intros Hne. unfold get_satisfying_assignment.
    destruct (has_satisfying_assignment_ s) eqn:Hhas.
    + pose proof (reachable_vector_length s Hr Hhas) as Hlen.
      destruct (reachable_invariant s Hr) as [Hn _].
      pose proof (max_magnitude_nonneg (formula_ s)) as Hnn. rewrite <- Hn in Hnn.
      destruct (nonempty_of_length _ _ Hnn Hlen) as [Hv _].
      rewrite (vec_from_second_tail _ Hv). discriminate.
    + destruct Hquery as [->|(verdict & s' & Hq)]; [discriminate|].
      rewrite Hq. cbn [mbind outcome_bind]. destruct verdict; [|discriminate].
      assert (reachable s') as Hr' by (by eapply reachable_query).
      destruct (is_satisfiable_nonempty _ _ _ _ Hne Hq) as (_ & _ & Hn' & Hh').
      pose proof (reachable_vector_length s' Hr' Hh') as Hlen.
      destruct (reachable_invariant s' Hr') as [Hn _].
      pose proof (max_magnitude_nonneg (formula_ s')) as Hnn. rewrite <- Hn in Hnn.
      destruct (nonempty_of_length _ _ Hnn Hlen) as [Hv _].
      rewrite (vec_from_second_tail _ Hv). discriminate.
Qed.

(** A solver holding a literal 0, which the search does not survive by
    terminating, is still never out of bounds. *)
Lemma search_never_out_of_bounds_witness :
  is_satisfiable 7 (add_clause (add_clause new_solver [0; 5]) [-3; 2])
  <> Undefined
  /\ (formula_ (add_clause (add_clause new_solver [0; 5]) [-3; 2]) <> [] ->
      get_satisfying_assignment 7
        (add_clause (add_clause new_solver [0; 5]) [-3; 2]) <> Undefined).
Proof.
  apply (search_never_out_of_bounds 7
           (add_clause (add_clause new_solver [0; 5]) [-3; 2])).
  - apply reachable_add. apply reachable_add. exact reachable_new.
  - unfold bounded_literals, INT_MAX. cbn. repeat constructor; lia.
Defined.

(** ** Repeated queries and the cache *)

(** X4.  A second [is_satisfiable] right after a first one returns the same
    verdict and leaves the solver, cached vector included, exactly as the
    first call left it. *)
Theorem is_satisfiable_idempotent (fuel : nat) (s s' : SATSolver) (verdict : bool) :
  is_satisfiable fuel s = Done (verdict, s') ->
  is_satisfiable fuel s' = Done (verdict, s').
Proof.
  intros Hq. destruct (formula_ s) as [|clause rest] eqn:Hf.
  - rewrite (is_satisfiable_empty fuel s Hf) in Hq. inversion Hq; subst.
    by apply is_satisfiable_empty.
  - assert (formula_ s <> []) as Hne by (by rewrite Hf).
    destruct (is_satisfiable_nonempty _ _ _ _ Hne Hq) as (Hd & Hf' & Hn' & Hh').
    pose proof (is_satisfiable_guard _ _ _ _ Hne Hq) as Hguard.
    rewrite is_satisfiable_run; [|by rewrite Hf'|by rewrite Hn'].
    unfold initial_vector in *. rewrite Hf', Hn', Hd.
    cbn [mbind outcome_bind]. clear Hq Hf Hne Hd Hguard.
    destruct s'. cbn in *. by subst.
Qed.

Lemma is_satisfiable_idempotent_witness :
  is_satisfiable 2 (mkSATSolver [[1; 2; 3]; [-1; 2; -3]] 3
                      [false; false; true; false] true)
  = Done (true, mkSATSolver [[1; 2; 3]; [-1; 2; -3]] 3
                  [false; false; true; false] true).
Proof.
  apply (is_satisfiable_idempotent 2 (solver_of [[1; 2; 3]; [-1; 2; -3]])).
  reflexivity.
Defined.

(** X12.  In every reachable state with the cache flag up, the cached
    vector belongs to the formula now stored: [get_satisfying_assignment]
    returns it without searching, and a new [is_satisfiable] with enough
    fuel answers true and recomputes the very same state. *)
Theorem cached_assignment_is_current (s : SATSolver) :
  reachable s -> has_satisfying_assignment_ s = true ->
  (forall fuel,
     get_satisfying_assignment fuel s = Done (tail (assignment_ s), s))
  /\ exists fuel0, forall n, is_satisfiable (n + fuel0) s = Done (true, s).
Proof.
  intros Hr Hhas.
  destruct (reachable_invariant s Hr) as [Hn Hcache].
  destruct (Hcache Hhas) as (Hne & fuel0 & Hd).
  pose proof (reachable_vector_length s Hr Hhas) as Hlen.
  pose proof (max_magnitude_nonneg (formula_ s)) as Hnn. rewrite <- Hn in Hnn.
  destruct (nonempty_of_length _ _ Hnn Hlen) as [Hv _].
  split.
  - intros fuel. unfold get_satisfying_assignment.
    by rewrite Hhas, (vec_from_second_tail _ Hv).
  - exists fuel0. intros n.
    rewrite (is_satisfiable_run _ s Hne (reachable_guard s Hr Hhas)).
    rewrite (dpll_mono_add n _ _ _ _ _ Hd). cbn [mbind outcome_bind].
    clear -Hhas. destruct s. cbn in *. by subst.
Qed.

Lemma cached_assignment_is_current_witness :
  let s := mkSATSolver [[1; 2; 3]; [-1; 2; -3]] 3
             [false; false; true; false] true in
  (forall fuel,
     get_satisfying_assignment fuel s = Done (tail (assignment_ s), s))
  /\ exists fuel0, forall n, is_satisfiable (n + fuel0) s = Done (true, s).
Proof.
  apply (cached_assignment_is_current
           (mkSATSolver [[1; 2; 3]; [-1; 2; -3]] 3
              [false; false; true; false] true)).
  - apply (reachable_query (solver_of [[1; 2; 3]; [-1; 2; -3]]) 2 true).
    + unfold solver_of. cbn [fold_left].
      apply reachable_add. apply reachable_add. exact reachable_new.
    + reflexivity.
  - reflexivity.
Defined.

(** X7.  With at least one clause stored, whenever
    [get_satisfying_assignment] returns from a reachable state, either the
    solver ends with the cache flag up and the result has exactly one
    entry per variable, or the flag is down and the result is the empty
    vector. *)
Theorem get_satisfying_assignment_shape (fuel : nat) (s s' : SATSolver)
  (result : list bool) :
  reachable s -> formula_ s <> [] ->
  get_satisfying_assignment fuel s = Done (result, s') ->
  (has_satisfying_assignment_ s' = true
   /\ Z.of_nat (length result) = get_num_variables s
   /\ result = tail (assignment_ s'))
  \/ (has_satisfying_assignment_ s' = false /\ result = []).
Proof.
  intros Hr Hne Hget.
  assert (forall t, reachable t -> has_satisfying_assignment_ t = true ->
            vec_from_second (assignment_ t) = Done (tail (assignment_ t))
            /\ Z.of_nat (length (tail (assignment_ t))) = num_variables_ t)
    as Hcached.
  { intros t Ht Hh. pose proof (reachable_vector_length t Ht Hh) as Hlen.
    destruct (reachable_invariant t Ht) as [Hn _].
    pose proof (max_magnitude_nonneg (formula_ t)) as Hnn. rewrite <- Hn in Hnn.
    destruct (nonempty_of_length _ _ Hnn Hlen) as [Hv Hl].
    split; [by apply vec_from_second_tail|done]. }
  unfold get_satisfying_assignment in Hget.
  destruct (has_satisfying_assignment_ s) eqn:Hhas.
  - destruct (Hcached s Hr Hhas) as [Hvec Hl]. rewrite Hvec in Hget.
    cbn [mbind outcome_bind] in Hget. inversion Hget; subst. left. by rewrite Hhas.
  - destruct (is_satisfiable fuel s) as [[sat s1]| |] eqn:Hq;
      cbn [mbind outcome_bind] in Hget; try discriminate.
    destruct (is_satisfiable_nonempty _ _ _ _ Hne Hq) as (_ & _ & Hn1 & Hh1).
    destruct sat.
    + assert (reachable s1) as Hr1 by (by eapply reachable_query).
      destruct (Hcached s1 Hr1 Hh1) as [Hvec Hl]. rewrite Hvec in Hget.
      cbn [mbind outcome_bind] in Hget. inversion Hget; subst. left.
      split; [done|]. split; [|done]. unfold get_num_variables. congruence.
    + inversion Hget; subst. by right.
Qed.

Lemma get_satisfying_assignment_shape_witness :
  let s := solver_of [[1; 2]; [3; 4]] in
  let s' := mkSATSolver [[1; 2]; [3; 4]] 4 [false; true; false; false; false] true in
  (has_satisfying_assignment_ s' = true
   /\ Z.of_nat (length [true; false; false; false]) = get_num_variables s
   /\ [true; false; false; false] = tail (assignment_ s'))
  \/ (has_satisfying_assignment_ s' = false /\ [true; false; false; false] = []).
Proof.
  apply (get_satisfying_assignment_shape 2 (solver_of [[1; 2]; [3; 4]])).
  - unfold solver_of. cbn [fold_left].
    apply reachable_add. apply reachable_add. exact reachable_new.
  - discriminate.
  - reflexivity.
Defined.

(** ** Termination from reachable states *)

(** X6.  From every reachable state whose stored literals are all nonzero
    and of magnitude below [INT_MAX], [is_satisfiable] returns: two units
    of fuel are enough (the recursion of [dpll] is never deeper than one
    nested call), and the verdict and final state are the same for every
    larger amount of fuel. *)
Theorem is_satisfiable_returns (s : SATSolver) :
  reachable s -> nonzero_literals (formula_ s) ->
  bounded_literals (formula_ s) ->
  exists verdict s',
    forall n, is_satisfiable (S (S n)) s = Done (verdict, s').
Proof.
  intros Hr Hnz Hbound.
  destruct (decide (formula_ s = [])) as [Hf|Hne].
  { exists true, s. intros n. by apply is_satisfiable_empty. }
  destruct (dpll_total_any_fuel (formula_ s) (initial_vector s) 1 Hnz
              (initial_vector_covers s Hr)) as [[result a'] Hd].
  eexists _, _. intros n.
  rewrite (is_satisfiable_run _ s Hne (reachable_counter_small s Hr Hbound)).
  rewrite Hd. cbn [mbind outcome_bind]. reflexivity.
Qed.

Lemma is_satisfiable_returns_witness :
  exists verdict s',
    forall n,
      is_satisfiable (S (S n))
        (add_clause (clear (add_clause new_solver [7])) [1; -2]) = Done (verdict, s').
Proof.
  apply (is_satisfiable_returns
           (add_clause (clear (add_clause new_solver [7])) [1; -2])).
  - apply reachable_add. apply reachable_clear. apply reachable_add.
    exact reachable_new.
  - unfold nonzero_literals. cbn. repeat constructor; lia.
  - unfold bounded_literals, INT_MAX. cbn. repeat constructor; lia.
Defined.

(** ** What the search computes on formulas of nonzero literals *)

(** The closed form of [simplify] on nonzero literals: one empty clause
    per clause that the vector does not satisfy. *)
Lemma simplify_nonzero_shape (f : list (list Z)) (a : list bool) :
  nonzero_literals f -> in_bounds f a ->
  exists f1,
    simplify f a = Done f1
    /\ Forall (fun clause => clause = []) f1
    /\ clause_list_empty f1 = vector_satisfies a f
    /\ existsb clause_empty f1 = negb (vector_satisfies a f).
Proof.
  intros Hnz Hb. rewrite (simplify_spec _ _ Hb). eexists. split; [reflexivity|].
  clear Hb. unfold vector_satisfies.
  induction Hnz as [|clause rest Hc Hrest IH]; [by repeat split|].
  destruct IH as (Hall & Hempty & Hex). cbn [List.filter forallb].
  destruct (clause_satisfied a clause) eqn:Hsat; cbn [negb andb]; [done|].
  cbn [map]. rewrite (unsatisfied_clause_loses_all _ _ Hc Hsat).
  split; [by constructor|]. done.
Qed.

Lemma all_empty_choose_variable (f : list (list Z)) :
  Forall (fun clause => clause = []) f -> choose_variable f = -1.
Proof.
  intros Hall. apply choose_variable_none, no_literal_occurs.
  induction Hall as [|clause rest -> _ IH]; [done|]. exact IH.
Qed.

Lemma no_empty_clause_iff (f : list (list Z)) :
  existsb clause_empty f = false <-> [] ∉ f.
Proof.
  rewrite <- clause_empty_exists. by destruct (existsb clause_empty f).
Qed.

(** With a unit clause: one propagation step, and the verdict is whether
    the vector after that step satisfies the whole formula. *)
Lemma dpll_unit_case (f : list (list Z)) (a : list bool) (v lit : Z) :
  nonzero_literals f -> in_bounds f a ->
  f <> [] -> [] ∉ f -> first_unit f = Some lit ->
  dpll 2 f a v
  = Done (vector_satisfies (<[Z.to_nat (Z.abs lit) := (0 <? lit)]> a) f,
          <[Z.to_nat (Z.abs lit) := (0 <? lit)]> a).
Proof.
  intros Hnz Hb Hne Hnoempty Hu.
  change (dpll 2 f a v) with (dpll_body 2 (dpll 1) f a v). unfold dpll_body.
  rewrite (list_nonempty_flag _ Hne), (proj2 (no_empty_clause_iff f) Hnoempty).
  pose proof (first_unit_Some _ _ Hu) as Hin.
  assert (0 <= Z.abs lit < Z.of_nat (length a)) as Hrange.
  { eapply literal_in_bounds; [exact Hb|exact Hin|left]. }
  set (a1 := <[Z.to_nat (Z.abs lit) := (0 <? lit)]> a).
  destruct (simplify_nonzero_shape f a1 Hnz (in_bounds_insert _ _ _ _ Hb))
    as (f1 & Hs & Hall & Hempty & Hex).
  unfold unit_propagate. cbn [unit_propagate_loop]. rewrite Hu.
  rewrite (vec_set_in_range _ _ _ Hrange). cbn [mbind outcome_bind].
  fold a1. rewrite Hs. cbn [mbind outcome_bind].
  rewrite (all_empty_no_unit _ Hall). cbn [mbind outcome_bind]. rewrite Hex.
  destruct (vector_satisfies a1 f); cbn [negb]; [|done].
  destruct f1 as [|clause rest]; [|discriminate]. reflexivity.
Qed.

(** Without a unit clause but with a variable chosen by pure-literal
    elimination: the verdict is true. *)
Lemma dpll_pure_case (f : list (list Z)) (a : list bool) (v x : Z) (value : bool) :
  nonzero_literals f -> in_bounds f a ->
  f <> [] -> [] ∉ f -> first_unit f = None ->
  pure_choice f = Some (x, value) ->
  dpll 2 f a v = Done (true, <[Z.to_nat x := value]> a).
Proof.
  intros Hnz Hb Hne Hnoempty Hu Hchoice.
  change (dpll 2 f a v) with (dpll_body 2 (dpll 1) f a v). unfold dpll_body.
  rewrite (list_nonempty_flag _ Hne), (proj2 (no_empty_clause_iff f) Hnoempty).
  unfold unit_propagate. cbn [unit_propagate_loop]. rewrite Hu.
  cbn [mbind outcome_bind].
  rewrite (proj2 (no_empty_clause_iff f) Hnoempty).
  pose proof (pure_choice_in_range _ _ _ _ Hb Hchoice) as Hrange.
  destruct (pure_literal_eliminate_fixes _ _ _ _ Hb Hrange Hchoice)
    as (f2 & -> & Hs).
  cbn [mbind outcome_bind].
  pose proof (simplify_nonzero_all_empty _ _ _ Hnz
                (in_bounds_insert _ _ _ _ Hb) Hs) as Hall.
  destruct (clause_list_empty f2); [done|].
  by rewrite (all_empty_choose_variable _ Hall).
Qed.

Lemma nonempty_clause_occurs (f : list (list Z)) :
  f <> [] -> [] ∉ f -> exists lit, occurs lit f.
Proof.
  destruct f as [|[|lit clause] rest]; [done| |].
  - intros _ Hno. destruct Hno. left.
  - intros _ _. exists lit. apply Exists_cons_hd. left.
Qed.

(** With neither: the least variable is tried true, then false, and the
    verdict is whether one of the two vectors satisfies the formula. *)
Lemma dpll_branch_case (f : list (list Z)) (a : list bool) (v : Z) :
  nonzero_literals f -> in_bounds f a ->
  f <> [] -> [] ∉ f -> first_unit f = None -> pure_choice f = None ->
  0 <= choose_variable f < Z.of_nat (length a)
  /\ dpll 2 f a v
     = (if vector_satisfies (<[Z.to_nat (choose_variable f) := true]> a) f
        then Done (true, <[Z.to_nat (choose_variable f) := true]> a)
        else Done (vector_satisfies
                     (<[Z.to_nat (choose_variable f) := false]> a) f,
                   <[Z.to_nat (choose_variable f) := false]> a)).
Proof.
  intros Hnz Hb Hne Hnoempty Hu Hchoice.
  destruct (nonempty_clause_occurs f Hne Hnoempty) as [lit Hocc].
  destruct (choose_variable_least f lit Hocc) as [(lit0 & Hocc0 & Hx) _].
  pose proof (occurs_in_bounds _ _ _ Hb Hocc0) as Hrange. rewrite <- Hx in Hrange.
  split; [exact Hrange|].
  change (dpll 2 f a v) with (dpll_body 2 (dpll 1) f a v). unfold dpll_body.
  rewrite (list_nonempty_flag _ Hne), (proj2 (no_empty_clause_iff f) Hnoempty).
  unfold unit_propagate. cbn [unit_propagate_loop]. rewrite Hu.
  cbn [mbind outcome_bind].
  rewrite (proj2 (no_empty_clause_iff f) Hnoempty).
  unfold pure_literal_eliminate. rewrite Hchoice. cbn [mbind outcome_bind].
  rewrite (list_nonempty_flag _ Hne).
  destruct (choose_variable f =? -1) eqn:Hcmp; [apply Z.eqb_eq in Hcmp; lia|].
  set (x := choose_variable f) in *.
  unfold dpll_branch.
  rewrite (vec_set_in_range _ _ _ Hrange). cbn [mbind outcome_bind].
  set (a3 := <[Z.to_nat x := true]> a).
  destruct (simplify_nonzero_shape f a3 Hnz (in_bounds_insert _ _ _ _ Hb))
    as (fc & -> & Hall & Hempty & _).
  cbn [mbind outcome_bind]. rewrite (dpll_all_empty 0 fc a3 (x + 1) Hall), Hempty.
  cbn [mbind outcome_bind].
  destruct (vector_satisfies a3 f); [done|].
  assert (0 <= x < Z.of_nat (length a3)) as Hrange3
    by (unfold a3; by rewrite length_insert).
  rewrite (vec_set_in_range _ _ _ Hrange3). cbn [mbind outcome_bind].
  assert (<[Z.to_nat x := false]> a3 = <[Z.to_nat x := false]> a) as ->
    by (unfold a3; apply list_insert_insert_eq).
  destruct (simplify_nonzero_shape f (<[Z.to_nat x := false]> a) Hnz
              (in_bounds_insert _ _ _ _ Hb)) as (fc' & -> & Hall' & Hempty' & _).
  cbn [mbind outcome_bind].
  by rewrite (dpll_all_empty 0 fc' _ (x + 1) Hall'), Hempty'.
Qed.

(** Two runs of [dpll] that both return agree, whatever their fuel. *)
Lemma dpll_fuel_irrelevant (n m : nat) (f : list (list Z)) (a : list bool) (v : Z)
  (r r' : bool * list bool) :
  dpll n f a v = Done r -> dpll m f a v = Done r' -> r = r'.
Proof.
  intros Hn Hm.
  pose proof (dpll_mono_add m _ _ _ _ _ Hn) as H1.
  pose proof (dpll_mono_add n _ _ _ _ _ Hm) as H2.
  replace (m + n)%nat with (n + m)%nat in H1 by lia. congruence.
Qed.

(** ** The vector of the solver and the returned witness *)

Lemma var_value_tail (a : list bool) (lit : Z) :
  lit <> 0 -> value_of (tail a) (Z.abs lit) = var_value a lit.
Proof.
  intros Hnz. unfold value_of, var_value. rewrite lookup_tail.
  by replace (S (Z.to_nat (Z.abs lit - 1))) with (Z.to_nat (Z.abs lit)) by lia.
Qed.

Lemma literal_true_tail (a : list bool) (lit : Z) :
  lit <> 0 -> literal_true (tail a) lit = lit_satisfied a lit.
Proof.
  intros Hnz. unfold literal_true, lit_satisfied.
  rewrite <- (var_value_tail a lit Hnz).
  destruct (0 <? lit) eqn:Hpos.
  - apply Z.ltb_lt in Hpos. rewrite Z.abs_eq by lia.
    assert ((lit <? 0) = false) as -> by (apply Z.ltb_ge; lia).
    by destruct (value_of (tail a) lit).
  - apply Z.ltb_ge in Hpos.
    assert ((lit <? 0) = true) as -> by (apply Z.ltb_lt; lia).
    rewrite Z.abs_neq by lia. by cbn [andb orb].
Qed.

(** On nonzero literals, the vector satisfies a formula exactly when the
    sequence cut from it by [get_satisfying_assignment] makes every clause
    true. *)
Lemma vector_satisfies_formula_true (a : list bool) (f : list (list Z)) :
  nonzero_literals f -> formula_true (tail a) f = vector_satisfies a f.
Proof.
  unfold formula_true, vector_satisfies, clause_true, clause_satisfied.
  induction 1 as [|clause rest Hc Hrest IH]; [done|].
  cbn [forallb]. rewrite IH. f_equal. clear -Hc.
  induction Hc as [|lit more Hlit Hmore IHc]; [done|].
  cbn [existsb]. by rewrite IHc, (literal_true_tail a lit Hlit).
Qed.

Lemma satisfied_no_empty_clause (a : list bool) (f : list (list Z)) :
  vector_satisfies a f = true -> [] ∉ f.
Proof.
  unfold vector_satisfies. rewrite forallb_forall. intros Hall Hin.
  apply list_elem_of_In in Hin. by specialize (Hall [] Hin).
Qed.

Lemma dpll_empty_clause_case (n : nat) (f : list (list Z)) (a : list bool) (v : Z) :
  [] ∈ f -> dpll (S n) f a v = Done (false, a).
Proof.
  intros Hin. cbn [dpll]. unfold dpll_body.
  rewrite (proj2 (clause_empty_exists f) Hin).
  destruct f; [by inversion Hin|done].
Qed.

(** ** The pure-literal rule and satisfying vectors *)

Lemma pure_choice_sound (f : list (list Z)) (x : Z) (value : bool) :
  nonzero_literals f -> pure_choice f = Some (x, value) ->
  if value then pure_positive x f else pure_negative x f.
Proof.
  intros Hnz. unfold pure_choice.
  pose proof (collect_literals_spec f) as Hspec.
  destruct (collect_literals f) as [pos neg].
  destruct Hspec as (_ & _ & Hep & Hen).
  destruct (find (fun var => negb (set_find var neg)) pos) as [u|] eqn:Hfp.
  - intros Heq. inversion Heq; subst.
    apply find_Some_elem in Hfp as [Hin Hp]. apply Hep in Hin as [Hpos Hocc].
    split; [done|]. split; [done|]. intros Hneg.
    apply negb_true_iff, not_true_iff_false in Hp.
    apply Hp. rewrite set_find_elem, Hen. split; [lia|done].
  - destruct (find (fun var => negb (set_find var pos)) neg) as [u|] eqn:Hfn;
      [|discriminate].
    intros Heq. inversion Heq; subst.
    apply find_Some_elem in Hfn as [Hin Hp]. apply Hen in Hin as [Hnn Hocc].
    pose proof (occurs_nonzero _ _ Hnz Hocc) as Hne.
    split; [lia|]. split; [done|]. intros Hposocc.
    apply negb_true_iff, not_true_iff_false in Hp.
    apply Hp. rewrite set_find_elem, Hep. split; [lia|done].
Qed.

Lemma pure_choice_some (f : list (list Z)) (w : Z) :
  pure w f -> exists x value, pure_choice f = Some (x, value).
Proof.
  intros Hpure. unfold pure_choice.
  pose proof (collect_literals_spec f) as Hspec.
  destruct (collect_literals f) as [pos neg].
  destruct Hspec as (_ & _ & Hep & Hen).
  destruct (find (fun var => negb (set_find var neg)) pos) as [u|] eqn:Hfp;
    [by eexists _, _|].
  destruct (find (fun var => negb (set_find var pos)) neg) as [u|] eqn:Hfn;
    [by eexists _, _|].
  exfalso. destruct Hpure as [(Hpos & Hocc & Hnocc)|(Hpos & Hocc & Hnocc)].
  - pose proof (find_None_elem _ _ Hfp w (proj2 (Hep w) (conj Hpos Hocc))) as Hno.
    cbv beta in Hno. apply negb_false_iff, set_find_elem, Hen in Hno. tauto.
  - assert (w ∈ neg) as Hin by (apply Hen; split; [lia|done]).
    pose proof (find_None_elem _ _ Hfn w Hin) as Hno.
    cbv beta in Hno. apply negb_false_iff, set_find_elem, Hep in Hno. tauto.
Qed.

Lemma var_value_insert_ne (a : list bool) (i : nat) (b : bool) (lit : Z) :
  Z.to_nat (Z.abs lit) <> i -> var_value (<[i := b]> a) lit = var_value a lit.
Proof.
  intros Hne. unfold var_value. by rewrite list_lookup_insert_ne.
Qed.

Lemma var_value_insert_eq (a : list bool) (b : bool) (lit : Z) :
  Z.abs lit < Z.of_nat (length a) ->
  var_value (<[Z.to_nat (Z.abs lit) := b]> a) lit = b.
Proof.
  intros Hlt. unfold var_value. rewrite list_lookup_insert_eq; [done|lia].
Qed.

(** Fixing the variable chosen by pure-literal elimination keeps every
    clause that was satisfied satisfied. *)
Lemma pure_choice_keeps_satisfied (f : list (list Z)) (a : list bool)
  (x : Z) (value : bool) :
  nonzero_literals f -> in_bounds f a ->
  pure_choice f = Some (x, value) ->
  vector_satisfies a f = true ->
  vector_satisfies (<[Z.to_nat x := value]> a) f = true.
Proof.
  intros Hnz Hb Hchoice. pose proof (pure_choice_sound f x value Hnz Hchoice) as Hpure.
  unfold vector_satisfies. rewrite !forallb_forall. intros Hsat clause Hc.
  specialize (Hsat clause Hc). unfold clause_satisfied in *.
  apply existsb_exists in Hsat as (lit & Hl & Hlit). apply existsb_exists.
  exists lit. split; [done|].
  assert (occurs lit f) as Hocc.
  { unfold occurs. apply Exists_exists. exists clause.
    split; by apply list_elem_of_In. }
  pose proof (occurs_in_bounds _ _ _ Hb Hocc) as Hrange.
  pose proof (occurs_nonzero _ _ Hnz Hocc) as Hne.
  destruct (decide (Z.abs lit = x)) as [Heq|Hneq].
  - unfold lit_satisfied. subst x. rewrite var_value_insert_eq by lia.
    destruct value.
    + destruct Hpure as (_ & _ & Hnocc).
      assert (0 < lit) as Hpos.
      { destruct (decide (0 < lit)) as [?|Hn]; [done|]. exfalso. apply Hnocc.
        by replace (- Z.abs lit) with lit by lia. }
      apply Z.ltb_lt in Hpos. by rewrite Hpos.
    + destruct Hpure as (_ & _ & Hnocc).
      assert (lit < 0) as Hneg.
      { destruct (decide (lit < 0)) as [?|Hn]; [done|]. exfalso. apply Hnocc.
        by replace (Z.abs lit) with lit by lia. }
      apply Z.ltb_lt in Hneg. rewrite Hneg. cbn. by rewrite orb_true_r.
  - unfold lit_satisfied in *. rewrite var_value_insert_ne; [done|].
    destruct value; destruct Hpure as (Hpos & _); lia.
Qed.

Lemma satisfied_literal_slot (a : list bool) (lit : Z) :
  Z.abs lit < Z.of_nat (length a) -> lit <> 0 ->
  lit_satisfied a lit = true ->
  a !! Z.to_nat (Z.abs lit) = Some (0 <? lit).
Proof.
  intros Hlt Hnz. unfold lit_satisfied, var_value.
  destruct (a !! Z.to_nat (Z.abs lit)) as [b|] eqn:Hlook.
  - cbn [default]. destruct (0 <? lit) eqn:Hpos, (lit <? 0) eqn:Hneg, b;
      cbn; try done; lia.
  - apply lookup_ge_None in Hlook. lia.
Qed.

(** A vector that satisfies the formula is never lost by [dpll]: it answers
    true and the vector it hands back satisfies the formula too. *)
Lemma dpll_keeps_model (f : list (list Z)) (a : list bool) (v : Z) :
  nonzero_literals f -> in_bounds f a -> f <> [] ->
  vector_satisfies a f = true ->
  exists a', dpll 2 f a v = Done (true, a') /\ vector_satisfies a' f = true.
Proof.
  intros Hnz Hb Hne Hsat.
  pose proof (satisfied_no_empty_clause _ _ Hsat) as Hnoempty.
  destruct (first_unit f) as [lit|] eqn:Hu.
  - pose proof (first_unit_Some _ _ Hu) as Hin.
    assert (lit_satisfied a lit = true) as Hlit.
    { unfold vector_satisfies in Hsat. rewrite forallb_forall in Hsat.
      apply list_elem_of_In in Hin. specialize (Hsat _ Hin).
      cbn in Hsat. by rewrite orb_false_r in Hsat. }
    assert (occurs lit f) as Hocc.
    { unfold occurs. apply Exists_exists. exists [lit]. split; [done|left]. }
    pose proof (occurs_in_bounds _ _ _ Hb Hocc) as Hrange.
    pose proof (occurs_nonzero _ _ Hnz Hocc) as Hnzl.
    rewrite (dpll_unit_case f a v lit Hnz Hb Hne Hnoempty Hu).
    rewrite (list_insert_id a _ _ (satisfied_literal_slot a lit (proj2 Hrange) Hnzl Hlit)).
    rewrite Hsat. by exists a.
  - destruct (pure_choice f) as [[x value]|] eqn:Hchoice.
    + rewrite (dpll_pure_case f a v x value Hnz Hb Hne Hnoempty Hu Hchoice).
      eexists. split; [done|]. by apply pure_choice_keeps_satisfied.
    + destruct (dpll_branch_case f a v Hnz Hb Hne Hnoempty Hu Hchoice)
        as [Hrange ->].
      destruct (vector_satisfies (<[Z.to_nat (choose_variable f) := true]> a) f)
        eqn:Htrue; [by eexists|].
      assert (a !! Z.to_nat (choose_variable f) = Some false) as Hslot.
      { destruct (a !! Z.to_nat (choose_variable f)) as [[|]|] eqn:Hlook.
        - rewrite (list_insert_id a _ _ Hlook) in Htrue. congruence.
        - done.
        - apply lookup_ge_None in Hlook. lia. }
      rewrite (list_insert_id a _ _ Hslot), Hsat. by exists a.
Qed.

(** ** Verdicts of [is_satisfiable] that can be relied on *)

Lemma is_satisfiable_from_dpll (s : SATSolver) (r : bool) (a' : list bool) :
  formula_ s <> [] -> (num_variables_ s <? INT_MAX) = true ->
  dpll 2 (formula_ s) (initial_vector s) 1 = Done (r, a') ->
  forall n,
    is_satisfiable (S (S n)) s
    = Done (r, mkSATSolver (formula_ s) (num_variables_ s) a' r).
Proof.
  intros Hne Hguard Hd n. rewrite (is_satisfiable_run _ s Hne Hguard).
  replace (S (S n)) with (n + 2)%nat by lia.
  by rewrite (dpll_mono_add n _ _ _ _ _ Hd).
Qed.

Lemma is_satisfiable_agrees_dpll (fuel : nat) (s s' : SATSolver)
  (verdict r : bool) (a' : list bool) :
  formula_ s <> [] ->
  is_satisfiable fuel s = Done (verdict, s') ->
  dpll 2 (formula_ s) (initial_vector s) 1 = Done (r, a') ->
  verdict = r /\ assignment_ s' = a'.
Proof.
  intros Hne Hq Hd.
  destruct (is_satisfiable_nonempty _ _ _ _ Hne Hq) as (Hd' & _).
  pose proof (dpll_fuel_irrelevant _ _ _ _ _ _ _ Hd' Hd) as Heq.
  by inversion Heq.
Qed.

Lemma empty_clause_falsified (witness : list bool) (f : list (list Z)) :
  [] ∈ f -> formula_true witness f = false.
Proof.
  intros Hin. unfold formula_true. apply not_true_iff_false.
  rewrite forallb_forall. intros Hall.
  apply list_elem_of_In in Hin. by specialize (Hall [] Hin).
Qed.

(** X8.  A stored empty clause settles the query at once: for any solver
    state holding an empty clause, whatever else it holds, and with a
    counter of variables from 0 to below [INT_MAX], [is_satisfiable]
    answers false without touching a single slot of the fresh vector, and
    the answer is right, since no assignment makes an empty clause true. *)
Theorem empty_clause_reported_unsatisfiable (n : nat) (s : SATSolver) :
  [] ∈ formula_ s -> 0 <= num_variables_ s < INT_MAX ->
  is_satisfiable (S n) s
  = Done (false,
          mkSATSolver (formula_ s) (num_variables_ s) (initial_vector s) false)
  /\ forall witness, formula_true witness (formula_ s) = false.
Proof.
  intros Hin Hcount. split; [|intros witness; by apply empty_clause_falsified].
  assert (formula_ s <> []) as Hne by (intros Hnil; rewrite Hnil in Hin; inversion Hin).
  rewrite (is_satisfiable_run _ s Hne (proj2 (Z.ltb_lt _ _) (proj2 Hcount))).
  by rewrite (dpll_empty_clause_case n _ _ 1 Hin).
Qed.

Lemma empty_clause_reported_unsatisfiable_witness :
  is_satisfiable 1 (solver_of [[1; 2]; []; [0]])
  = Done (false,
          mkSATSolver [[1; 2]; []; [0]] 2 [false; false; false] false)
  /\ forall witness, formula_true witness [[1; 2]; []; [0]] = false.
Proof.
  apply (empty_clause_reported_unsatisfiable 0 (solver_of [[1; 2]; []; [0]])).
  - cbn. set_unfold. tauto.
  - change (0 <= 2 < 2147483647). lia.
Defined.

(** X9.  Where the answer true can be trusted.  Take a reachable state
    whose stored literals are nonzero and whose formula has a unit clause,
    or else has no pure variable.  Whenever [is_satisfiable] answers true,
    the vector it leaves, read as [get_satisfying_assignment] returns it,
    makes every stored clause true. *)
Theorem true_verdict_is_witnessed (fuel : nat) (s s' : SATSolver) :
  reachable s -> nonzero_literals (formula_ s) ->
  (exists lit, [lit] ∈ formula_ s) \/ (forall w, ~ pure w (formula_ s)) ->
  is_satisfiable fuel s = Done (true, s') ->
  formula_true (tail (assignment_ s')) (formula_ s) = true.
Proof.
  intros Hr Hnz Hclass Hq.
  destruct (decide (formula_ s = [])) as [Hnil|Hne]; [by rewrite Hnil|].
  rewrite (vector_satisfies_formula_true _ _ Hnz).
  pose proof (initial_vector_covers s Hr) as Hb.
  destruct (decide ([] ∈ formula_ s)) as [Hin|Hnoempty].
  { pose proof (dpll_empty_clause_case 1 _ (initial_vector s) 1 Hin) as Hd.
    by destruct (is_satisfiable_agrees_dpll _ _ _ _ _ _ Hne Hq Hd). }
  destruct (first_unit (formula_ s)) as [lit|] eqn:Hu.
  - pose proof (dpll_unit_case _ _ 1 lit Hnz Hb Hne Hnoempty Hu) as Hd.
    destruct (is_satisfiable_agrees_dpll _ _ _ _ _ _ Hne Hq Hd) as [Hv ->].
    by rewrite <- Hv.
  - assert (pure_choice (formula_ s) = None) as Hchoice.
    { destruct Hclass as [[lit Hin]|Hnone]; [|by apply pure_choice_none].
      apply first_unit_None in Hu. rewrite Forall_forall in Hu.
      by destruct (Hu [lit] Hin). }
    destruct (dpll_branch_case _ _ 1 Hnz Hb Hne Hnoempty Hu Hchoice) as [_ Hd].
    destruct (vector_satisfies
                (<[Z.to_nat (choose_variable (formula_ s)) := true]>
                   (initial_vector s)) (formula_ s)) eqn:Htrue.
    + by destruct (is_satisfiable_agrees_dpll _ _ _ _ _ _ Hne Hq Hd) as [_ ->].
    + destruct (is_satisfiable_agrees_dpll _ _ _ _ _ _ Hne Hq Hd) as [Hv ->].
      by rewrite <- Hv.
Qed.

Lemma true_verdict_is_witnessed_witness :
  formula_true (tail [false; true; false; false]) [[1; 2]; [1]; [-3; 1]] = true.
Proof.
  apply (true_verdict_is_witnessed 2 (solver_of [[1; 2]; [1]; [-3; 1]])
           (mkSATSolver [[1; 2]; [1]; [-3; 1]] 3 [false; true; false; false] true)).
  - unfold solver_of. cbn [fold_left]. repeat apply reachable_add.
    exact reachable_new.
  - unfold nonzero_literals. cbn. repeat constructor; lia.
  - left. exists 1. cbn. set_unfold. tauto.
  - reflexivity.
Defined.

Lemma all_false_satisfies (k : nat) (f : list (list Z)) :
  Forall (Exists (fun lit => lit < 0)) f ->
  vector_satisfies (replicate k false) f = true.
Proof.
  unfold vector_satisfies. rewrite forallb_forall. intros Hall clause Hc.
  rewrite Forall_forall in Hall. apply list_elem_of_In in Hc.
  specialize (Hall clause Hc). apply Exists_exists in Hall as (lit & Hl & Hneg).
  unfold clause_satisfied. apply existsb_exists. exists lit.
  split; [by apply list_elem_of_In|].
  unfold lit_satisfied, var_value.
  assert (default false (replicate k false !! Z.to_nat (Z.abs lit)) = false) as ->.
  { destruct (replicate k false !! Z.to_nat (Z.abs lit)) as [b|] eqn:Hlook; [|done].
    by apply lookup_replicate in Hlook as [-> _]. }
  assert ((lit <? 0) = true) as -> by (by apply Z.ltb_lt).
  cbn. by rewrite orb_true_r.
Qed.

(** X10.  A class of formulas the solver always gets right.  If every
    stored clause of a reachable state contains a negative literal (so
    that setting every variable false satisfies the formula) and the
    literals are nonzero and of magnitude below [INT_MAX],
    [is_satisfiable] returns true with two units of fuel or more, and the
    vector it leaves, read as [get_satisfying_assignment] returns it,
    makes every stored clause true. *)
Theorem negative_literal_formulas_solved (s : SATSolver) :
  reachable s -> nonzero_literals (formula_ s) ->
  bounded_literals (formula_ s) -> formula_ s <> [] ->
  Forall (Exists (fun lit => lit < 0)) (formula_ s) ->
  exists s',
    (forall n, is_satisfiable (S (S n)) s = Done (true, s'))
    /\ formula_true (tail (assignment_ s')) (formula_ s) = true.
Proof.
  intros Hr Hnz Hbound Hne Hneg.
  destruct (dpll_keeps_model (formula_ s) (initial_vector s) 1 Hnz
              (initial_vector_covers s Hr) Hne (all_false_satisfies _ _ Hneg))
    as (a' & Hd & Hsat).
  exists (mkSATSolver (formula_ s) (num_variables_ s) a' true).
  split.
  { apply is_satisfiable_from_dpll; [done| |done].
    by apply reachable_counter_small. }
  cbn [assignment_]. by rewrite (vector_satisfies_formula_true _ _ Hnz).
Qed.

Lemma negative_literal_formulas_solved_witness :
  exists s',
    (forall n,
       is_satisfiable (S (S n)) (solver_of [[1; -2]; [-1; 2]; [-1; -2]])
       = Done (true, s'))
    /\ formula_true (tail (assignment_ s')) [[1; -2]; [-1; 2]; [-1; -2]] = true.
Proof.
  apply (negative_literal_formulas_solved
           (solver_of [[1; -2]; [-1; 2]; [-1; -2]])).
  - unfold solver_of. cbn [fold_left]. repeat apply reachable_add.
    exact reachable_new.
  - unfold nonzero_literals. cbn. repeat constructor; lia.
  - unfold bounded_literals, INT_MAX. cbn. repeat constructor; lia.
  - discriminate.
  - change (Forall (Exists (fun lit => lit < 0)) [[1; -2]; [-1; 2]; [-1; -2]]).
    repeat apply Forall_cons_2; [| | |constructor].
    + apply Exists_cons_tl, Exists_cons_hd. lia.
    + apply Exists_cons_hd. lia.
    + apply Exists_cons_hd. lia.
Defined.

(** X11.  A pure variable decides the answer.  In a reachable state whose
    stored formula has nonzero literals of magnitude below [INT_MAX], at
    least one clause, no empty clause and no unit clause, the presence of
    a pure variable makes [is_satisfiable] answer true, with two units of
    fuel or more: after the pure variable is fixed nothing is examined any
    further. *)
Theorem pure_variable_answers_true (s : SATSolver) :
  reachable s -> nonzero_literals (formula_ s) ->
  bounded_literals (formula_ s) ->
  formula_ s <> [] -> [] ∉ formula_ s ->
  Forall (fun clause => length clause <> 1%nat) (formula_ s) ->
  (exists w, pure w (formula_ s)) ->
  exists s', forall n, is_satisfiable (S (S n)) s = Done (true, s').
Proof.
  intros Hr Hnz Hbound Hne Hnoempty Hnounit [w Hpure].
  destruct (pure_choice_some _ _ Hpure) as (x & value & Hchoice).
  apply first_unit_None in Hnounit.
  pose proof (dpll_pure_case _ _ 1 x value Hnz (initial_vector_covers s Hr)
                Hne Hnoempty Hnounit Hchoice) as Hd.
  eexists. apply is_satisfiable_from_dpll; [done| |exact Hd].
  by apply reachable_counter_small.
Qed.

Lemma pure_variable_answers_true_witness :
  exists s',
    forall n, is_satisfiable (S (S n)) (solver_of [[1; 2]; [-1; 2]]) = Done (true, s').
Proof.
  apply (pure_variable_answers_true (solver_of [[1; 2]; [-1; 2]])).
  - unfold solver_of. cbn [fold_left]. repeat apply reachable_add.
    exact reachable_new.
  - unfold nonzero_literals. cbn. repeat constructor; lia.
  - unfold bounded_literals, INT_MAX. cbn. repeat constructor; lia.
  - discriminate.
  - cbn. set_unfold. intros [?|[?|?]]; done.
  - cbn. repeat constructor; discriminate.
  - exists 2. left. split; [lia|]. split.
    + apply occurs_concat. cbn. set_unfold. lia.
    + rewrite occurs_concat. cbn. set_unfold. lia.
Defined.

(** X13.  The search looks at few vectors.  From a reachable state with a
    nonempty formula of nonzero literals, whenever [is_satisfiable]
    returns, the vector it leaves differs from the all-false vector it
    started from in at most one slot: it is that vector with one slot
    overwritten. *)
Theorem search_overwrites_one_slot (fuel : nat) (s s' : SATSolver) (verdict : bool) :
  reachable s -> nonzero_literals (formula_ s) -> formula_ s <> [] ->
  is_satisfiable fuel s = Done (verdict, s') ->
  exists i value, assignment_ s' = <[i := value]> (initial_vector s).
Proof.
  intros Hr Hnz Hne Hq.
  pose proof (initial_vector_covers s Hr) as Hb.
  destruct (decide ([] ∈ formula_ s)) as [Hin|Hnoempty].
  { pose proof (dpll_empty_clause_case 1 _ (initial_vector s) 1 Hin) as Hd.
    destruct (is_satisfiable_agrees_dpll _ _ _ _ _ _ Hne Hq Hd) as [_ ->].
    exists (length (initial_vector s)), false. by rewrite list_insert_ge. }
  destruct (first_unit (formula_ s)) as [lit|] eqn:Hu.
  - pose proof (dpll_unit_case _ _ 1 lit Hnz Hb Hne Hnoempty Hu) as Hd.
    destruct (is_satisfiable_agrees_dpll _ _ _ _ _ _ Hne Hq Hd) as [_ ->].
    by eexists _, _.
  - destruct (pure_choice (formula_ s)) as [[x value]|] eqn:Hchoice.
    + pose proof (dpll_pure_case _ _ 1 x value Hnz Hb Hne Hnoempty Hu Hchoice)
        as Hd.
      destruct (is_satisfiable_agrees_dpll _ _ _ _ _ _ Hne Hq Hd) as [_ ->].
      by eexists _, _.
    + destruct (dpll_branch_case _ _ 1 Hnz Hb Hne Hnoempty Hu Hchoice) as [_ Hd].
      destruct (vector_satisfies
                  (<[Z.to_nat (choose_variable (formula_ s)) := true]>
                     (initial_vector s)) (formula_ s)) eqn:Htrue;
        destruct (is_satisfiable_agrees_dpll _ _ _ _ _ _ Hne Hq Hd) as [_ ->];
        by eexists _, _.
Qed.

Lemma search_overwrites_one_slot_witness :
  exists i value,
    [false; true; false; false; false]
    = <[i := value]> (initial_vector (solver_of [[1; 2]; [3; 4]])).
Proof.
  apply (search_overwrites_one_slot 2 (solver_of [[1; 2]; [3; 4]])
           (mkSATSolver [[1; 2]; [3; 4]] 4 [false; true; false; false; false] true)
           true).
  - unfold solver_of. cbn [fold_left]. repeat apply reachable_add.
    exact reachable_new.
  - unfold nonzero_literals. cbn. repeat constructor; lia.
  - discriminate.
  - reflexivity.
Defined.

(** ** More on [simplify] *)

Lemma filter_filter_same {A : Type} (p : A -> bool) (l : list A) :
  List.filter p (List.filter p l) = List.filter p l.
Proof.
  induction l as [|x l IH]; [done|]. cbn [List.filter].
  destruct (p x) eqn:Hp; [|exact IH]. cbn [List.filter]. by rewrite Hp, IH.
Qed.

Lemma filter_keeps_unsatisfied (a : list bool) (p : Z -> bool) (clause : list Z) :
  clause_satisfied a clause = false ->
  clause_satisfied a (List.filter p clause) = false.
Proof.
  unfold clause_satisfied. induction clause as [|lit rest IH]; [done|].
  cbn [existsb List.filter]. intros Hsat.
  apply orb_false_iff in Hsat as [Hl Hr].
  destruct (p lit); [|by apply IH]. cbn [existsb]. by rewrite Hl, IH.
Qed.

Lemma simplified_is_fixed (a : list bool) (f : list (list Z)) :
  let g := List.filter (fun lit => negb (lit_falsified a lit)) in
  let p := fun clause => negb (clause_satisfied a clause) in
  map g (List.filter p (map g (List.filter p f))) = map g (List.filter p f).
Proof.
  cbv zeta. induction f as [|clause rest IH]; [done|].
  cbn [List.filter]. destruct (clause_satisfied a clause) eqn:Hsat; cbn [negb];
    [exact IH|].
  cbn [map List.filter].
  rewrite (filter_keeps_unsatisfied a _ clause Hsat). cbn [negb map].
  by rewrite filter_filter_same, IH.
Qed.

(** X14.  [simplify] is idempotent: whatever the literals are, as long as
    the vector covers the variables of the formula, simplifying the
    simplified formula again under the same vector changes nothing. *)
Theorem simplify_idempotent (f : list (list Z)) (a : list bool) :
  in_bounds f a ->
  exists f', simplify f a = Done f' /\ simplify f' a = Done f'.
Proof.
  intros Hb. destruct (simplify_done f a Hb) as (f' & Hs & Hb').
  exists f'. split; [exact Hs|].
  rewrite (simplify_spec _ _ Hb') . rewrite (simplify_spec _ _ Hb) in Hs.
  inversion Hs as [Hf']. by rewrite simplified_is_fixed.
Qed.

Lemma simplify_idempotent_witness :
  exists f',
    simplify [[1; 0; -2]; [2; 3]; [-3; 0]] [false; false; true; true] = Done f'
    /\ simplify f' [false; false; true; true] = Done f'.
Proof.
  apply (simplify_idempotent [[1; 0; -2]; [2; 3]; [-3; 0]]
           [false; false; true; true]).
  unfold in_bounds, clause_in_bounds. repeat constructor; simpl; lia.
Defined.

Lemma map_filter_nil {A B : Type} (g : A -> B) (l : list A) :
  map g l = [] <-> l = [].
Proof. destruct l; split; intros; done. Qed.

Lemma satisfied_not_falsified (a : list bool) (lit : Z) :
  lit_satisfied a lit = true -> lit_falsified a lit = false.
Proof.
  unfold lit_satisfied, lit_falsified.
  destruct (0 <? lit) eqn:Hp, (lit <? 0) eqn:Hn, (var_value a lit); cbn;
    try done; lia.
Qed.

Lemma all_falsified_unsatisfied (a : list bool) (clause : list Z) :
  forallb (lit_falsified a) clause = true ->
  clause_satisfied a clause = false.
Proof.
  unfold clause_satisfied. induction clause as [|lit rest IH]; [done|].
  cbn [forallb existsb]. intros Hall. apply andb_true_iff in Hall as [Hl Hr].
  rewrite (IH Hr), orb_false_r.
  destruct (lit_satisfied a lit) eqn:Hs; [|done].
  apply satisfied_not_falsified in Hs. congruence.
Qed.

Lemma filter_nil_forallb {A : Type} (p : A -> bool) (l : list A) :
  List.filter (fun x => negb (p x)) l = [] <-> forallb p l = true.
Proof.
  induction l as [|x l IH]; [done|]. cbn [List.filter forallb].
  destruct (p x); cbn [negb andb]; [exact IH|]. split; discriminate.
Qed.

(** X15.  What the result of [simplify] tells.  With a vector covering the
    variables of the formula, the simplified formula is empty exactly when
    the vector satisfies every clause, and it contains an empty clause (the
    conflict signal) exactly when the vector falsifies every literal of
    some clause. *)
Theorem simplify_verdicts (f : list (list Z)) (a : list bool) :
  in_bounds f a ->
  exists f',
    simplify f a = Done f'
    /\ (f' = [] <-> vector_satisfies a f = true)
    /\ ([] ∈ f' <->
        exists clause, clause ∈ f /\ forallb (lit_falsified a) clause = true).
Proof.
  intros Hb. rewrite (simplify_spec _ _ Hb). eexists. split; [reflexivity|].
  clear Hb. split.
  - rewrite map_filter_nil. unfold vector_satisfies. apply filter_nil_forallb.
  - rewrite list_elem_of_fmap. split.
    + intros (clause & Hnil & Hin).
      apply list_elem_of_In, filter_In in Hin as [Hin _].
      exists clause. split; [by apply list_elem_of_In|].
      by apply filter_nil_forallb.
    + intros (clause & Hin & Hall). exists clause. split.
      * symmetry. by apply filter_nil_forallb.
      * apply list_elem_of_In, filter_In. split; [by apply list_elem_of_In|].
        by rewrite (all_falsified_unsatisfied _ _ Hall).
Qed.

Lemma simplify_verdicts_witness :
  exists f',
    simplify [[1; -2]; [2; 3]] [false; false; true; false] = Done f'
    /\ (f' = [] <->
        vector_satisfies [false; false; true; false] [[1; -2]; [2; 3]] = true)
    /\ ([] ∈ f' <->
        exists clause,
          clause ∈ [[1; -2]; [2; 3]]
          /\ forallb (lit_falsified [false; false; true; false]) clause = true).
Proof.
  apply (simplify_verdicts [[1; -2]; [2; 3]] [false; false; true; false]).
  unfold in_bounds, clause_in_bounds. repeat constructor; simpl; lia.
Defined.

(** ** The remaining queries *)

Lemma all_size_three_Forall (f : list (list Z)) :
  all_size_three f = true <-> Forall (fun clause => length clause = 3%nat) f.
Proof.
  induction f as [|clause rest IH]; [by split; [constructor|]|].
  cbn [all_size_three]. destruct (length clause =? 3)%nat eqn:Hlen; cbn [negb].
  - apply Nat.eqb_eq in Hlen. rewrite IH.
    split; [by constructor|by inversion 1].
  - apply Nat.eqb_neq in Hlen. split; [discriminate|by inversion 1].
Qed.

Lemma all_size_three_snoc (f : list (list Z)) (clause : list Z) :
  all_size_three (f ++ [clause])
  = all_size_three f && (length clause =? 3)%nat.
Proof.
  induction f as [|c rest IH]; cbn [app all_size_three].
  - by destruct (length clause =? 3)%nat.
  - destruct (length c =? 3)%nat; cbn [negb]; [exact IH|done].
Qed.

Lemma run_ops_formula (ops : list store_op) :
  formula_ (run_ops ops) = clauses_since_clear ops.
Proof.
  unfold run_ops. rewrite stored_formula_run. cbn [new_solver formula_ app].
  by destruct (existsb _ ops).
Qed.

(** X1.  [is_3sat] and [get_num_clauses] follow the history of the store:
    after any sequence of [add_clause] and [clear], [is_3sat] holds
    exactly when every clause added since the last [clear] has three
    literals, and [get_num_clauses] is the number of those clauses.  Adding
    a clause keeps [is_3sat] only if the clause has three literals, and
    [clear] always restores it. *)
Theorem is_3sat_follows_history :
  (forall ops,
     (is_3sat (run_ops ops) = true
      <-> Forall (fun clause => length clause = 3%nat) (clauses_since_clear ops))
     /\ get_num_clauses (run_ops ops)
        = Z.of_nat (length (clauses_since_clear ops)))
  /\ (forall s clause,
        is_3sat (add_clause s clause)
        = is_3sat s && (length clause =? 3)%nat)
  /\ (forall s, is_3sat (clear s) = true).
Proof.
  split; [|split].
  - intros ops. unfold is_3sat, get_num_clauses. rewrite run_ops_formula.
    split; [apply all_size_three_Forall|done].
  - intros s clause. unfold is_3sat. cbn [add_clause formula_].
    apply all_size_three_snoc.
  - reflexivity.
Qed.

(** X2.  [create_solver_from_clauses] stores what it is given: for
    clauses of [int] literals other than [INT_MIN], the solver it returns
    holds the clauses verbatim and in order, counts them, has the largest
    literal magnitude as its number of variables, and starts with the
    cache flag down and no cached vector. *)
Theorem create_solver_from_clauses_stores (clauses : list (list Z)) :
  Forall int_clause clauses ->
  formula_ (create_solver_from_clauses clauses) = clauses
  /\ get_num_clauses (create_solver_from_clauses clauses)
     = Z.of_nat (length clauses)
  /\ get_num_variables (create_solver_from_clauses clauses)
     = max_magnitude clauses
  /\ 0 <= get_num_variables (create_solver_from_clauses clauses) <= INT_MAX
  /\ (is_3sat (create_solver_from_clauses clauses) = true
      <-> Forall (fun clause => length clause = 3%nat) clauses)
  /\ has_satisfying_assignment_ (create_solver_from_clauses clauses) = false
  /\ assignment_ (create_solver_from_clauses clauses) = [].
Proof.
  intros Hrange.
  destruct (fill_solver clauses new_solver eq_refl) as [Hf Hn].
  cbn [new_solver formula_ app] in Hf, Hn.
  unfold create_solver_from_clauses, get_num_clauses, get_num_variables, is_3sat.
  rewrite Hf, Hn. split; [done|]. split; [done|]. split; [done|].
  split; [by apply max_magnitude_int|].
  split; [apply all_size_three_Forall|].
  destruct (decide (clauses = [])) as [->|Hne]; [done|].
  destruct (exists_last Hne) as (front & clause & ->).
  rewrite fold_left_app. by cbn.
Qed.

Lemma create_solver_from_clauses_stores_witness :
  get_num_variables (create_solver_from_clauses [[1; -4; 2]; [3]])
  = max_magnitude [[1; -4; 2]; [3]].
Proof.
  assert (Forall int_clause [[1; -4; 2]; [3]]) as Hrange.
  { unfold int_clause, INT_MIN, INT_MAX. repeat constructor; lia. }
  exact (proj1 (proj2 (proj2 (create_solver_from_clauses_stores _ Hrange)))).
Defined.

(** ** Generated instances in the solver *)

Lemma max_magnitude_bound (f : list (list Z)) (bound : Z) :
  0 <= bound ->
  Forall (Forall (fun lit => 1 <= Z.abs lit <= bound)) f ->
  max_magnitude f <= bound.
Proof.
  intros Hnn Hall. unfold max_magnitude.
  induction Hall as [|clause rest Hc Hrest IH]; [cbn; lia|].
  cbn [concat]. rewrite map_app, foldr_max_app.
  assert (foldr Z.max 0 (map Z.abs clause) <= bound) as Hcl.
  { clear -Hc Hnn. induction Hc as [|lit more Hl Hm IHc]; cbn; lia. }
  lia.
Qed.

(** X3.  Generated instances fit the solver.  Whatever engine stands
    behind the generator, provided its distribution respects its range,
    and for a number of variables from 1 to below [INT_MAX]: the solver
    built from [generate_random_3sat (num_vars, num_clauses)] passes
    [is_3sat], counts [num_clauses] clauses (none for a negative
    argument), has at most [num_vars] variables, and [is_satisfiable]
    returns on it with two units of fuel or more. *)
Theorem generated_instance_loads (engine : Type) (engine_init : Z -> engine)
  (uniform_int : Z -> Z -> engine -> Z * engine) (rd num_vars num_clauses : Z) :
  (forall lo hi gen, lo <= hi -> lo <= fst (uniform_int lo hi gen) <= hi) ->
  1 <= num_vars < INT_MAX ->
  let s := create_solver_from_clauses
             (generate_random_3sat engine engine_init uniform_int rd
                num_vars num_clauses) in
  is_3sat s = true
  /\ get_num_clauses s = Z.max 0 num_clauses
  /\ 0 <= get_num_variables s <= num_vars
  /\ exists verdict s', forall n, is_satisfiable (S (S n)) s = Done (verdict, s').
Proof.
  intros Hrange [Hnv Hsmall]. cbv zeta.
  set (f := generate_random_3sat engine engine_init uniform_int rd
              num_vars num_clauses).
  destruct (random_clauses_shape engine uniform_int (Z.to_nat num_clauses)
              num_vars (engine_init rd) [] (List.Forall_nil _)) as [Hlen Hshape].
  pose proof (random_clauses_range engine uniform_int Hrange
                (Z.to_nat num_clauses) num_vars (engine_init rd) [] Hnv
                (List.Forall_nil _)) as Hlits.
  fold (generate_random_3sat engine engine_init uniform_int rd num_vars num_clauses)
    in Hlen, Hshape, Hlits. fold f in Hlen, Hshape, Hlits.
  destruct (fill_solver f new_solver eq_refl) as [Hf Hn].
  cbn [new_solver formula_ app] in Hf, Hn.
  unfold create_solver_from_clauses, is_3sat, get_num_clauses, get_num_variables.
  rewrite Hf, Hn. split; [by apply all_size_three_Forall|].
  split; [rewrite Hlen; cbn [length]; lia|].
  split.
  - split; [apply max_magnitude_nonneg|apply max_magnitude_bound; [lia|done]].
  - apply is_satisfiable_total.
    + unfold nonzero_literals.
      eapply Forall_impl; [exact Hlits|]. intros clause Hc.
      eapply Forall_impl; [exact Hc|]. intros lit Hl. cbv beta in *. lia.
    + unfold bounded_literals.
      eapply Forall_impl; [exact Hlits|]. intros clause Hc.
      eapply Forall_impl; [exact Hc|]. intros lit Hl. cbv beta in *. lia.
Qed.

Lemma generated_instance_loads_witness :
  let s := create_solver_from_clauses
             (generate_random_3sat Z counter_init counter_uniform_int 42 5 10) in
  is_3sat s = true
  /\ get_num_clauses s = Z.max 0 10
  /\ 0 <= get_num_variables s <= 5
  /\ exists verdict s', forall n, is_satisfiable (S (S n)) s = Done (verdict, s').
Proof.
  apply (generated_instance_loads Z counter_init counter_uniform_int 42 5 10).
  - exact counter_uniform_int_range.
  - unfold INT_MAX. lia.
Defined.

(** ** [are_equivalent] as a relation *)

(** X16.  On formulas of nonzero literals of magnitude below [INT_MAX]
    and with two units of fuel or more, [are_equivalent] always answers,
    and its answers make an equivalence relation: every formula is
    equivalent to itself, the answer does not depend on the order of the
    two arguments, and two formulas equivalent to a third are equivalent
    to each other. *)
Theorem are_equivalent_is_equivalence (f1 f2 f3 : list (list Z)) :
  nonzero_literals f1 -> nonzero_literals f2 -> nonzero_literals f3 ->
  bounded_literals f1 -> bounded_literals f2 -> bounded_literals f3 ->
  forall n,
    are_equivalent (S (S n)) f1 f1 = Done true
    /\ (exists answer, are_equivalent (S (S n)) f1 f2 = Done answer
                       /\ are_equivalent (S (S n)) f2 f1 = Done answer)
    /\ (are_equivalent (S (S n)) f1 f2 = Done true ->
        are_equivalent (S (S n)) f2 f3 = Done true ->
        are_equivalent (S (S n)) f1 f3 = Done true).
Proof.
  intros Hnz1 Hnz2 Hnz3 Hb1 Hb2 Hb3 n.
  destruct (is_satisfiable_total f1 Hnz1 Hb1) as (sat1 & s1 & H1).
  destruct (is_satisfiable_total f2 Hnz2 Hb2) as (sat2 & s2 & H2).
  destruct (is_satisfiable_total f3 Hnz3 Hb3) as (sat3 & s3 & H3).
  unfold are_equivalent. rewrite !H1, !H2, !H3. cbn [mbind outcome_bind].
  split; [by destruct sat1|]. split.
  - exists (Bool.eqb sat1 sat2). by destruct sat1, sat2.
  - by destruct sat1, sat2, sat3.
Qed.

Lemma are_equivalent_is_equivalence_witness :
  are_equivalent 2 [[1]; [-1]] [[1]; [-1]] = Done true
  /\ (exists answer,
        are_equivalent 2 [[1]; [-1]] [[2; 3]] = Done answer
        /\ are_equivalent 2 [[2; 3]] [[1]; [-1]] = Done answer)
  /\ (are_equivalent 2 [[1]; [-1]] [[2; 3]] = Done true ->
      are_equivalent 2 [[2; 3]] [[4]; [-4]] = Done true ->
      are_equivalent 2 [[1]; [-1]] [[4]; [-4]] = Done true).
Proof.
  apply (are_equivalent_is_equivalence [[1]; [-1]] [[2; 3]] [[4]; [-4]]);
    unfold nonzero_literals, bounded_literals, INT_MAX; repeat constructor; lia.
Defined.

(** ** The rendering of formulas *)

Lemma string_app_assoc (s1 s2 s3 : string) :
  (s1 +:+ s2) +:+ s3 = s1 +:+ (s2 +:+ s3).
Proof.
  induction s1 as [|c s1 IH]; [done|].
  change (String c ((s1 +:+ s2) +:+ s3) = String c (s1 +:+ (s2 +:+ s3))).
  by rewrite IH.
Qed.

Lemma string_app_nil_r (s : string) : s +:+ "" = s.
Proof.
  induction s as [|c s IH]; [done|].
  change (String c (s +:+ "") = String c s). by rewrite IH.
Qed.

(** Appending a clause to a nonempty formula appends [" AND "] and the
    rendering of the clause to the rendering of the formula. *)
Lemma formula_string_snoc (clause : list Z) (f : list (list Z)) (i : nat) :
  f <> [] ->
  formula_string i (i + S (length f)) (f ++ [clause])
  = formula_string i (i + length f) f
    +:+ " AND " +:+ "(" +:+ clause_string 0 clause +:+ ")".
Proof.
  revert i. induction f as [|x rest IH]; intros i Hne; [done|].
  cbn [app formula_string length].
  assert ((i <? i + S (S (length rest)) - 1)%nat = true) as ->
    by (apply Nat.ltb_lt; lia).
  destruct rest as [|y rest].
  - cbn [app formula_string length].
    assert ((S i <? i + 2 - 1)%nat = false) as -> by (apply Nat.ltb_ge; lia).
    assert ((i <? i + 1 - 1)%nat = false) as -> by (apply Nat.ltb_ge; lia).
    rewrite !string_app_assoc. cbn [String.app]. by rewrite !string_app_nil_r.
  - replace (i + S (S (length (y :: rest))))%nat
      with (S i + S (length (y :: rest)))%nat by lia.
    rewrite IH by done.
    assert ((i <? i + S (length (y :: rest)) - 1)%nat = true) as ->
      by (apply Nat.ltb_lt; cbn [length]; lia).
    replace (i + S (length (y :: rest)))%nat
      with (S i + length (y :: rest))%nat by lia.
    by rewrite !string_app_assoc.
Qed.

Lemma formula_string_size_one (clause : list Z) (i : nat) :
  formula_string i (S i) [clause] = "(" +:+ clause_string 0 clause +:+ ")".
Proof.
  cbn [formula_string].
  assert ((i <? S i - 1)%nat = false) as -> by (apply Nat.ltb_ge; lia).
  cbn [String.app]. by rewrite !string_app_nil_r.
Qed.

(** X17.  How [to_string] grows with the store.  The rendering is the
    empty text exactly when no clause is stored.  Adding a clause to an
    empty store renders that clause in parentheses; adding it to a
    nonempty store appends [" AND "] and the parenthesised clause to the
    previous rendering, which is left unchanged. *)
Theorem to_string_add_clause :
  (forall s, to_string s = "" <-> formula_ s = [])
  /\ (forall s clause,
        to_string (add_clause s clause)
        = (if clause_list_empty (formula_ s) then ""
           else to_string s +:+ " AND ")
          +:+ "(" +:+ clause_string 0 clause +:+ ")").
Proof.
  split.
  - intros s. unfold to_string. destruct (formula_ s) as [|clause rest]; [done|].
    split; discriminate.
  - intros s clause. unfold to_string. cbn [add_clause formula_].
    destruct (formula_ s) as [|x rest] eqn:Hf.
    + cbn [app length clause_list_empty]. apply (formula_string_size_one clause 0).
    + cbn [clause_list_empty]. rewrite length_app.
      replace (length (x :: rest) + length [clause])%nat
        with (0 + S (length (x :: rest)))%nat by (cbn [length]; lia).
      rewrite formula_string_snoc by done.
      by rewrite !string_app_assoc.
Qed.

(** X18.  Literals are rendered without collision: two different literals
    never get the same text ([x<n>] or [NOT x<n>]) in [to_string]. *)
Theorem literal_string_injective (lit lit' : Z) :
  lit <> lit' -> literal_string lit <> literal_string lit'.
Proof.
  intros Hne Heq. apply Hne. clear Hne. unfold literal_string in Heq.
  destruct (lit <? 0) eqn:Hneg, (lit' <? 0) eqn:Hneg'.
  - apply (inj (String.app "NOT x")) in Heq. apply (inj pretty) in Heq. lia.
  - discriminate Heq.
  - discriminate Heq.
  - apply (inj (String.app "x")) in Heq. by apply (inj pretty) in Heq.
Qed.

Lemma literal_string_injective_witness :
  literal_string 12 <> literal_string (-12).
Proof. apply (literal_string_injective 12 (-12)). lia. Defined.

(** ** The two propagation passes and the vector *)

(** X19.  The pure-literal pass never spoils a satisfying vector.  On a
    formula of nonzero literals whose clauses are all satisfied by the
    vector, [pure_literal_eliminate] returns a vector that still satisfies
    every clause; and when it fixed a variable, the formula it leaves is
    empty. *)
Theorem pure_literal_eliminate_keeps_model (f : list (list Z)) (a : list bool) :
  nonzero_literals f -> in_bounds f a -> vector_satisfies a f = true ->
  exists (changed : bool) a',
    pure_literal_eliminate f a
    = Done (changed, (if changed then [] else f), a')
    /\ vector_satisfies a' f = true.
Proof.
  intros Hnz Hb Hsat. destruct (pure_choice f) as [[x value]|] eqn:Hchoice.
  - pose proof (pure_choice_in_range _ _ _ _ Hb Hchoice) as Hrange.
    destruct (pure_literal_eliminate_fixes _ _ _ _ Hb Hrange Hchoice)
      as (f' & Hrun & Hs).
    pose proof (pure_choice_keeps_satisfied _ _ _ _ Hnz Hb Hchoice Hsat) as Hsat'.
    destruct (simplify_nonzero_shape f _ Hnz
                (in_bounds_insert _ _ (Z.to_nat x) value Hb))
      as (f1 & Hs1 & _ & Hempty & _).
    rewrite Hs in Hs1. inversion Hs1; subst f1. rewrite Hsat' in Hempty.
    destruct f'; [|discriminate].
    by exists true, (<[Z.to_nat x := value]> a).
  - exists false, a. unfold pure_literal_eliminate. by rewrite Hchoice.
Qed.

Lemma pure_literal_eliminate_keeps_model_witness :
  exists (changed : bool) a',
    pure_literal_eliminate [[-1; 2]; [-3; -1]] [false; false; false; false]
    = Done (changed, (if changed then [] else [[-1; 2]; [-3; -1]]), a')
    /\ vector_satisfies a' [[-1; 2]; [-3; -1]] = true.
Proof.
  apply (pure_literal_eliminate_keeps_model [[-1; 2]; [-3; -1]]
           [false; false; false; false]).
  - unfold nonzero_literals. repeat constructor; lia.
  - unfold in_bounds, clause_in_bounds. repeat constructor; simpl; lia.
  - reflexivity.
Defined.

(** X20.  What unit propagation writes and reports.  On a formula of
    nonzero literals with a vector covering its variables: without a unit
    clause nothing is written, the formula is handed back as it is, and a
    conflict is reported exactly when it already holds an empty clause.
    With a unit clause, only the slot of the variable of the first unit
    clause is written, with the value that satisfies that literal, and a
    conflict is reported exactly when the vector so obtained fails to
    satisfy some clause of the formula. *)
Theorem unit_propagate_writes_first_unit (f : list (list Z)) (a : list bool) :
  nonzero_literals f -> in_bounds f a ->
  (first_unit f = None ->
   forall n, unit_propagate (S n) f a = Done (existsb clause_empty f, f, a))
  /\ (forall lit, first_unit f = Some lit ->
      exists f',
        (forall n,
           unit_propagate (S (S n)) f a
           = Done (negb (vector_satisfies
                           (<[Z.to_nat (Z.abs lit) := (0 <? lit)]> a) f),
                   f', <[Z.to_nat (Z.abs lit) := (0 <? lit)]> a))
        /\ lit_satisfied (<[Z.to_nat (Z.abs lit) := (0 <? lit)]> a) lit = true).
Proof.
  intros Hnz Hb. split.
  - intros Hu n. unfold unit_propagate. cbn [unit_propagate_loop].
    by rewrite Hu.
  - intros lit Hu.
    pose proof (first_unit_Some _ _ Hu) as Hin.
    assert (0 <= Z.abs lit < Z.of_nat (length a)) as Hrange.
    { eapply literal_in_bounds; [exact Hb|exact Hin|left]. }
    assert (lit <> 0) as Hnzl.
    { apply (occurs_nonzero lit f Hnz). unfold occurs. apply Exists_exists.
      exists [lit]. split; [done|left]. }
    destruct (simplify_nonzero_shape f _ Hnz
                (in_bounds_insert _ _ (Z.to_nat (Z.abs lit)) (0 <? lit) Hb))
      as (f1 & Hs & Hall & _ & Hex).
    exists f1. split.
    + intros n. unfold unit_propagate. cbn [unit_propagate_loop]. rewrite Hu.
      rewrite (vec_set_in_range _ _ _ Hrange). cbn [mbind outcome_bind].
      rewrite Hs. cbn [mbind outcome_bind].
      rewrite (all_empty_no_unit _ Hall). cbn [mbind outcome_bind].
      by rewrite Hex.
    + unfold lit_satisfied. rewrite var_value_insert_eq by lia.
      destruct (0 <? lit) eqn:Hpos; [done|].
      assert ((lit <? 0) = true) as -> by (apply Z.ltb_lt; apply Z.ltb_ge in Hpos; lia).
      done.
Qed.

Lemma unit_propagate_writes_first_unit_witness :
  exists f',
    (forall n,
       unit_propagate (S (S n)) [[1; 2]; [-2]; [1]] [false; false; false]
       = Done (negb (vector_satisfies
                       (<[Z.to_nat (Z.abs (-2)) := (0 <? -2)]> [false; false; false])
                       [[1; 2]; [-2]; [1]]),
               f', <[Z.to_nat (Z.abs (-2)) := (0 <? -2)]> [false; false; false]))
    /\ lit_satisfied (<[Z.to_nat (Z.abs (-2)) := (0 <? -2)]> [false; false; false])
         (-2) = true.
Proof.
  assert (nonzero_literals [[1; 2]; [-2]; [1]]) as Hnz
    by (unfold nonzero_literals; repeat constructor; lia).
  assert (in_bounds [[1; 2]; [-2]; [1]] [false; false; false]) as Hb
    by (unfold in_bounds, clause_in_bounds; repeat constructor; simpl; lia).
  apply (proj2 (unit_propagate_writes_first_unit _ _ Hnz Hb) (-2)).
  reflexivity.
Defined.
